(** * LUD16 Harvester: relay parser, lud16 validator and harvest session

    A shallow embedding of [src/components/LUD16Harvester.tsx].

    - JavaScript strings are sequences of UTF-16 code units: [jsstring] is
      a list of code units, each an [N].
    - React state ([useState]) and refs ([useRef]) are the fields of one
      [State] record; the host (timers, relay pools, call log) is a
      sub-record of it.
    - The closures of one render read the state variables [relayInput] and
      [isRunning] as they were at that render: they are passed explicitly
      as a [Render]. *)

From Stdlib Require Import ZArith NArith Ascii String.
From stdpp Require Import gmap list pretty.

(** ** JavaScript strings *)

Module JsString.

#[local] Open Scope N_scope.

Definition jsstring := list N.

(** A Rocq string literal read as a JavaScript string, one code unit per
    character. *)
Definition js (s : string) : jsstring :=
  map N_of_ascii (list_ascii_of_string s).

Definition LF : N := 10.
Definition COMMA : N := 44.
Definition DOT : N := 46.
Definition AT : N := 64.

(** ECMAScript WhiteSpace and LineTerminator code units: the characters
    removed by [String.prototype.trim] and matched by the regular
    expression class [\s]. *)
Definition is_space (c : N) : bool :=
  (c =? 9) || (c =? 10) || (c =? 11) || (c =? 12) || (c =? 13) ||
  (c =? 32) || (c =? 160) || (c =? 5760) ||
  ((8192 <=? c) && (c <=? 8202)) ||
  (c =? 8232) || (c =? 8233) || (c =? 8239) || (c =? 8287) ||
  (c =? 12288) || (c =? 65279).

(** [s.split(re)] for a regular expression [re] that matches exactly one
    code unit satisfying [sep]: the empty string gives one empty token. *)
Fixpoint split (sep : N → bool) (s : jsstring) : list jsstring :=
  match s with
  | [] => [[]]
  | c :: rest =>
      if sep c then [] :: split sep rest
      else match split sep rest with
           | tok :: toks => (c :: tok) :: toks
           | [] => [[c]]
           end
  end.

Fixpoint trimStart (s : jsstring) : jsstring :=
  match s with
  | c :: rest => if is_space c then trimStart rest else s
  | [] => []
  end.

Definition trimEnd (s : jsstring) : jsstring :=
  reverse (trimStart (reverse s)).

(** [s.trim()] *)
Definition trim (s : jsstring) : jsstring := trimEnd (trimStart s).

(** [s.startsWith(p)] *)
Fixpoint startsWith (p s : jsstring) : bool :=
  match p, s with
  | [], _ => true
  | a :: p', b :: s' => (a =? b) && startsWith p' s'
  | _ :: _, [] => false
  end.

End JsString.

Export JsString.

(** ** Relay configuration parser *)

(** [parseRelays], lines 46-51. *)
Definition relay_separator (c : N) : bool := (c =? LF)%N || (c =? COMMA)%N.

Definition wss_prefix : jsstring := js "wss://".

Definition parseRelays (input : jsstring) : list jsstring :=
  List.filter (λ url, (0 <? length url)%nat && startsWith wss_prefix url)
    (map trim (split relay_separator input)).

(** ** Regular expressions

    The fragment of JavaScript regular expressions used by [LUD16_REGEX]:
    character classes, concatenation, alternation and repetition. With no
    capture groups, look-around or back-references, [re.test(s)] for an
    anchored pattern [^...$] without flags is membership of the whole
    string in the language of the pattern; [matches] decides it with
    derivatives. *)

Module Regex.

Inductive regex : Type :=
| Void : regex
| Eps : regex
| Class : (N → bool) → regex
| Seq : regex → regex → regex
| Alt : regex → regex → regex
| Star : regex → regex.

(** [r+] *)
Definition Plus (r : regex) : regex := Seq r (Star r).

(** The language of a pattern. *)
Inductive lang : regex → jsstring → Prop :=
| lang_eps : lang Eps []
| lang_class p c : p c = true → lang (Class p) [c]
| lang_seq r1 r2 s1 s2 : lang r1 s1 → lang r2 s2 → lang (Seq r1 r2) (s1 ++ s2)
| lang_alt_l r1 r2 s : lang r1 s → lang (Alt r1 r2) s
| lang_alt_r r1 r2 s : lang r2 s → lang (Alt r1 r2) s
| lang_star_nil r : lang (Star r) []
| lang_star_cons r c s1 s2 :
    lang r (c :: s1) → lang (Star r) s2 → lang (Star r) (c :: s1 ++ s2).

Fixpoint nullable (r : regex) : bool :=
  match r with
  | Void => false
  | Eps => true
  | Class _ => false
  | Seq r1 r2 => nullable r1 && nullable r2
  | Alt r1 r2 => nullable r1 || nullable r2
  | Star _ => true
  end.

Fixpoint deriv (c : N) (r : regex) : regex :=
  match r with
  | Void => Void
  | Eps => Void
  | Class p => if p c then Eps else Void
  | Seq r1 r2 =>
      if nullable r1 then Alt (Seq (deriv c r1) r2) (deriv c r2)
      else Seq (deriv c r1) r2
  | Alt r1 r2 => Alt (deriv c r1) (deriv c r2)
  | Star r1 => Seq (deriv c r1) (Star r1)
  end.

(** [/^r$/.test(s)] *)
Fixpoint matches (r : regex) (s : jsstring) : bool :=
  match s with
  | [] => nullable r
  | c :: rest => matches (deriv c r) rest
  end.

End Regex.

Import Regex.

(** ** The lud16 validator *)

(** [[^@\s]] *)
Definition not_at_or_space (c : N) : bool := negb ((c =? AT)%N || is_space c).

(** [LUD16_REGEX = /^[^@\s]+@[^@\s]+\.[^@\s]+$/], line 22. *)
Definition LUD16_REGEX : regex :=
  Seq (Plus (Class not_at_or_space))
    (Seq (Class (N.eqb AT))
       (Seq (Plus (Class not_at_or_space))
          (Seq (Class (N.eqb DOT))
             (Plus (Class not_at_or_space))))).

(** ** JavaScript values and profile metadata *)

(** The values [JSON.parse] can return, and [undefined]. A number keeps
    the text of its literal: the harvester never reads one. An object
    keeps its members in source order. *)
#[warnings="-register-all"]
Inductive JsValue : Type :=
| JUndefined : JsValue
| JNull : JsValue
| JBool : bool → JsValue
| JNumber : jsstring → JsValue
| JString : jsstring → JsValue
| JArray : list JsValue → JsValue
| JObject : list (jsstring * JsValue) → JsValue.

(** The member of an object named [key]: of duplicate members the last
    one wins, as in [JSON.parse]; an absent member is [undefined]. *)
Fixpoint member (key : jsstring) (members : list (jsstring * JsValue)) : JsValue :=
  match members with
  | [] => JUndefined
  | (k, v) :: rest =>
      match member key rest with
      | JUndefined => if decide (k = key) then v else JUndefined
      | later => later
      end
  end.

(** [metadata.lud16], line 62. Reading a property of [null] or
    [undefined] throws a TypeError ([None]); no prototype has a [lud16]
    property, so every other value that is not an object gives
    [undefined]. *)
Definition get_lud16 (metadata : JsValue) : option JsValue :=
  match metadata with
  | JUndefined | JNull => None
  | JObject members => Some (member (js "lud16") members)
  | _ => Some JUndefined
  end.

(** [isValidLud16], lines 54-56. *)
Definition isValidLud16 (value : JsValue) : bool :=
  match value with
  | JString s => matches LUD16_REGEX s
  | _ => false
  end.

(** The part of a nostr-tools [Event] the harvester reads. *)
Record NostrEvent : Type := mkEvent {
  kind : Z;
  content : jsstring
}.

(** ** The component state *)

(** Configuration, lines 20-21. *)
Definition MAX_ADDRESSES : nat := 21.
Definition TIMEOUT_MS : Z := 45000.

(** Default relay list, lines 11-17. *)
Definition DEFAULT_RELAYS : jsstring :=
  js "wss://relay.damus.io" ++ [LF] ++
  js "wss://relay.primal.net" ++ [LF] ++
  js "wss://nos.lol" ++ [LF] ++
  js "wss://relay.nostr.band" ++ [LF] ++
  js "wss://nostr.wine".

Inductive ConnectionStatus : Type := connecting | connected | error.

Record RelayStatus : Type := mkRelayStatus {
  url : jsstring;
  status : ConnectionStatus;
  error_detail : option jsstring
}.

(** What the closures created by one render of the component read from
    that render: the values of the state variables [relayInput] (read by
    [startHarvesting] and [stopHarvesting]) and [isRunning] (read by the
    unmount cleanup). Every other state variable is only written, or
    updated through a function of its current value. *)
Record Render : Type := mkRender {
  r_relayInput : jsstring;
  r_isRunning : bool
}.

(** The functions handed to the host. Each stands for the closure of the
    render in which [startHarvesting] ran. *)
Inductive Callback : Type :=
| TimeoutCb : Render → Callback      (* setTimeout(..., TIMEOUT_MS), l.135 *)
| IntervalCb : Callback              (* setInterval(..., 100), l.141 *)
| ConnectedCb : Callback.            (* setTimeout(..., 2000), l.182 *)

(** A [SimplePool]: the relays on which its subscription is open and the
    render whose [processEvent] is its [onevent] handler. *)
Record Pool : Type := mkPool {
  subscribed : list jsstring;
  onevent : option Render
}.

(** Calls made to the host and to the relay client, oldest first. *)
Inductive Call : Type :=
| CallSetTimeout : positive → Z → Call
| CallSetInterval : positive → Z → Call
| CallClearTimeout : positive → Call
| CallClearInterval : positive → Call
| CallNewPool : positive → Call
| CallSubscribeMany : positive → list jsstring → Call
| CallClose : positive → list jsstring → Call.

(** The host: armed timers by handle, pools by identity, the next fresh
    handles and the call log. A timer handle ([NodeJS.Timeout], or a
    positive integer in a browser) and a pool object are truthy, so both
    are named by a [positive]. *)
Record Host : Type := mkHost {
  timers : gmap positive Callback;
  pools : gmap positive Pool;
  nextTimer : positive;
  nextPool : positive;
  calls : list Call
}.

Record State : Type := mkState {
  (* useState, lines 31-36 *)
  relayInput : jsstring;
  isRunning : bool;
  foundAddresses : list jsstring;
  relayStatuses : list RelayStatus;
  statusMessage : jsstring;
  timeRemaining : option Z;
  (* useRef, lines 38-43 *)
  poolRef : option positive;
  addressSetRef : gset jsstring;
  timeoutIdRef : option positive;
  intervalIdRef : option positive;
  subIdRef : option jsstring;
  startTimeRef : option Z;
  (* the world outside the component *)
  host : Host
}.

Definition initialHost : Host :=
  {| timers := ∅; pools := ∅; nextTimer := 1; nextPool := 1; calls := [] |}.

Definition initialState : State :=
  {| relayInput := DEFAULT_RELAYS; isRunning := false; foundAddresses := [];
     relayStatuses := []; statusMessage := js "Ready to start";
     timeRemaining := None;
     poolRef := None; addressSetRef := ∅; timeoutIdRef := None;
     intervalIdRef := None; subIdRef := None; startTimeRef := None;
     host := initialHost |}.

(** The closures of the render that shows state [s]. *)
Definition render (s : State) : Render :=
  {| r_relayInput := relayInput s; r_isRunning := isRunning s |}.

(** ** Commands

    The component's functions run to completion on one thread; each is a
    command that reads and updates the [State]. State setters are applied
    in the order they are called, which is the state React shows at the
    next render. *)

Definition Cmd (A : Type) : Type := State → A * State.

#[global] Instance cmd_ret : MRet Cmd := λ A (a : A) s, (a, s).
#[global] Instance cmd_bind : MBind Cmd :=
  λ A B (k : A → Cmd B) (c : Cmd A) s, let (a, s') := c s in k a s'.

Definition exec {A : Type} (c : Cmd A) (s : State) : State := (c s).2.
Definition skip : Cmd unit := mret tt.
Definition read {A : Type} (field : State → A) : Cmd A := λ s, (field s, s).
Definition modify (f : State → State) : Cmd unit := λ s, (tt, f s).

Definition upd_relayInput (f : jsstring → jsstring) (s : State) : State :=
  {| relayInput := f (relayInput s); isRunning := isRunning s;
     foundAddresses := foundAddresses s; relayStatuses := relayStatuses s;
     statusMessage := statusMessage s; timeRemaining := timeRemaining s;
     poolRef := poolRef s; addressSetRef := addressSetRef s;
     timeoutIdRef := timeoutIdRef s; intervalIdRef := intervalIdRef s;
     subIdRef := subIdRef s; startTimeRef := startTimeRef s;
     host := host s |}.

Definition upd_isRunning (f : bool → bool) (s : State) : State :=
  {| relayInput := relayInput s; isRunning := f (isRunning s);
     foundAddresses := foundAddresses s; relayStatuses := relayStatuses s;
     statusMessage := statusMessage s; timeRemaining := timeRemaining s;
     poolRef := poolRef s; addressSetRef := addressSetRef s;
     timeoutIdRef := timeoutIdRef s; intervalIdRef := intervalIdRef s;
     subIdRef := subIdRef s; startTimeRef := startTimeRef s;
     host := host s |}.

Definition upd_foundAddresses (f : list jsstring → list jsstring) (s : State) : State :=
  {| relayInput := relayInput s; isRunning := isRunning s;
     foundAddresses := f (foundAddresses s);
     relayStatuses := relayStatuses s; statusMessage := statusMessage s;
     timeRemaining := timeRemaining s; poolRef := poolRef s;
     addressSetRef := addressSetRef s; timeoutIdRef := timeoutIdRef s;
     intervalIdRef := intervalIdRef s; subIdRef := subIdRef s;
     startTimeRef := startTimeRef s; host := host s |}.

Definition upd_relayStatuses (f : list RelayStatus → list RelayStatus) (s : State) : State :=
  {| relayInput := relayInput s; isRunning := isRunning s;
     foundAddresses := foundAddresses s;
     relayStatuses := f (relayStatuses s); statusMessage := statusMessage s;
     timeRemaining := timeRemaining s; poolRef := poolRef s;
     addressSetRef := addressSetRef s; timeoutIdRef := timeoutIdRef s;
     intervalIdRef := intervalIdRef s; subIdRef := subIdRef s;
     startTimeRef := startTimeRef s; host := host s |}.

Definition upd_statusMessage (f : jsstring → jsstring) (s : State) : State :=
  {| relayInput := relayInput s; isRunning := isRunning s;
     foundAddresses := foundAddresses s; relayStatuses := relayStatuses s;
     statusMessage := f (statusMessage s); timeRemaining := timeRemaining s;
     poolRef := poolRef s; addressSetRef := addressSetRef s;
     timeoutIdRef := timeoutIdRef s; intervalIdRef := intervalIdRef s;
     subIdRef := subIdRef s; startTimeRef := startTimeRef s;
     host := host s |}.

Definition upd_timeRemaining (f : option Z → option Z) (s : State) : State :=
  {| relayInput := relayInput s; isRunning := isRunning s;
     foundAddresses := foundAddresses s; relayStatuses := relayStatuses s;
     statusMessage := statusMessage s; timeRemaining := f (timeRemaining s);
     poolRef := poolRef s; addressSetRef := addressSetRef s;
     timeoutIdRef := timeoutIdRef s; intervalIdRef := intervalIdRef s;
     subIdRef := subIdRef s; startTimeRef := startTimeRef s;
     host := host s |}.

Definition upd_poolRef (f : option positive → option positive) (s : State) : State :=
  {| relayInput := relayInput s; isRunning := isRunning s;
     foundAddresses := foundAddresses s; relayStatuses := relayStatuses s;
     statusMessage := statusMessage s; timeRemaining := timeRemaining s;
     poolRef := f (poolRef s); addressSetRef := addressSetRef s;
     timeoutIdRef := timeoutIdRef s; intervalIdRef := intervalIdRef s;
     subIdRef := subIdRef s; startTimeRef := startTimeRef s;
     host := host s |}.

Definition upd_addressSetRef (f : gset jsstring → gset jsstring) (s : State) : State :=
  {| relayInput := relayInput s; isRunning := isRunning s;
     foundAddresses := foundAddresses s; relayStatuses := relayStatuses s;
     statusMessage := statusMessage s; timeRemaining := timeRemaining s;
     poolRef := poolRef s; addressSetRef := f (addressSetRef s);
     timeoutIdRef := timeoutIdRef s; intervalIdRef := intervalIdRef s;
     subIdRef := subIdRef s; startTimeRef := startTimeRef s;
     host := host s |}.

Definition upd_timeoutIdRef (f : option positive → option positive) (s : State) : State :=
  {| relayInput := relayInput s; isRunning := isRunning s;
     foundAddresses := foundAddresses s; relayStatuses := relayStatuses s;
     statusMessage := statusMessage s; timeRemaining := timeRemaining s;
     poolRef := poolRef s; addressSetRef := addressSetRef s;
     timeoutIdRef := f (timeoutIdRef s); intervalIdRef := intervalIdRef s;
     subIdRef := subIdRef s; startTimeRef := startTimeRef s;
     host := host s |}.

Definition upd_intervalIdRef (f : option positive → option positive) (s : State) : State :=
  {| relayInput := relayInput s; isRunning := isRunning s;
     foundAddresses := foundAddresses s; relayStatuses := relayStatuses s;
     statusMessage := statusMessage s; timeRemaining := timeRemaining s;
     poolRef := poolRef s; addressSetRef := addressSetRef s;
     timeoutIdRef := timeoutIdRef s; intervalIdRef := f (intervalIdRef s);
     subIdRef := subIdRef s; startTimeRef := startTimeRef s;
     host := host s |}.

Definition upd_subIdRef (f : option jsstring → option jsstring) (s : State) : State :=
  {| relayInput := relayInput s; isRunning := isRunning s;
     foundAddresses := foundAddresses s; relayStatuses := relayStatuses s;
     statusMessage := statusMessage s; timeRemaining := timeRemaining s;
     poolRef := poolRef s; addressSetRef := addressSetRef s;
     timeoutIdRef := timeoutIdRef s; intervalIdRef := intervalIdRef s;
     subIdRef := f (subIdRef s); startTimeRef := startTimeRef s;
     host := host s |}.

Definition upd_startTimeRef (f : option Z → option Z) (s : State) : State :=
  {| relayInput := relayInput s; isRunning := isRunning s;
     foundAddresses := foundAddresses s; relayStatuses := relayStatuses s;
     statusMessage := statusMessage s; timeRemaining := timeRemaining s;
     poolRef := poolRef s; addressSetRef := addressSetRef s;
     timeoutIdRef := timeoutIdRef s; intervalIdRef := intervalIdRef s;
     subIdRef := subIdRef s; startTimeRef := f (startTimeRef s);
     host := host s |}.

Definition upd_host (f : Host → Host) (s : State) : State :=
  {| relayInput := relayInput s; isRunning := isRunning s;
     foundAddresses := foundAddresses s; relayStatuses := relayStatuses s;
     statusMessage := statusMessage s; timeRemaining := timeRemaining s;
     poolRef := poolRef s; addressSetRef := addressSetRef s;
     timeoutIdRef := timeoutIdRef s; intervalIdRef := intervalIdRef s;
     subIdRef := subIdRef s; startTimeRef := startTimeRef s;
     host := f (host s) |}.

(** *** State setters and ref assignments *)

Definition setRelayInput (v : jsstring) : Cmd unit := modify (upd_relayInput (λ _, v)).
Definition setIsRunning (v : bool) : Cmd unit := modify (upd_isRunning (λ _, v)).
Definition setFoundAddresses (f : list jsstring → list jsstring) : Cmd unit :=
  modify (upd_foundAddresses f).
Definition setRelayStatuses (f : list RelayStatus → list RelayStatus) : Cmd unit :=
  modify (upd_relayStatuses f).
Definition setStatusMessage (v : jsstring) : Cmd unit := modify (upd_statusMessage (λ _, v)).
Definition setTimeRemaining (v : option Z) : Cmd unit := modify (upd_timeRemaining (λ _, v)).

Definition set_poolRef (v : option positive) : Cmd unit := modify (upd_poolRef (λ _, v)).
Definition set_timeoutIdRef (v : option positive) : Cmd unit := modify (upd_timeoutIdRef (λ _, v)).
Definition set_intervalIdRef (v : option positive) : Cmd unit := modify (upd_intervalIdRef (λ _, v)).
Definition set_subIdRef (v : option jsstring) : Cmd unit := modify (upd_subIdRef (λ _, v)).
Definition set_startTimeRef (v : option Z) : Cmd unit := modify (upd_startTimeRef (λ _, v)).

(** [addressSetRef.current.clear()] and [addressSetRef.current.add(a)] *)
Definition addressSet_clear : Cmd unit := modify (upd_addressSetRef (λ _, ∅)).
Definition addressSet_add (a : jsstring) : Cmd unit :=
  modify (upd_addressSetRef (λ set, {[a]} ∪ set)).

(** *** Host calls *)

Definition log (c : Call) (h : Host) : Host :=
  {| timers := timers h; pools := pools h; nextTimer := nextTimer h;
     nextPool := nextPool h; calls := calls h ++ [c] |}.

Definition arm (cb : Callback) (h : Host) : Host :=
  {| timers := <[nextTimer h := cb]> (timers h); pools := pools h;
     nextTimer := Pos.succ (nextTimer h); nextPool := nextPool h;
     calls := calls h |}.

Definition disarm (id : positive) (h : Host) : Host :=
  {| timers := delete id (timers h); pools := pools h;
     nextTimer := nextTimer h; nextPool := nextPool h; calls := calls h |}.

Definition upd_pools (f : gmap positive Pool → gmap positive Pool) (h : Host) : Host :=
  {| timers := timers h; pools := f (pools h); nextTimer := nextTimer h;
     nextPool := nextPool h; calls := calls h |}.

Definition setTimeout (cb : Callback) (ms : Z) : Cmd positive :=
  λ s, let id := nextTimer (host s) in
       (id, upd_host (λ h, log (CallSetTimeout id ms) (arm cb h)) s).

Definition setInterval (cb : Callback) (ms : Z) : Cmd positive :=
  λ s, let id := nextTimer (host s) in
       (id, upd_host (λ h, log (CallSetInterval id ms) (arm cb h)) s).

Definition clearTimeout (id : positive) : Cmd unit :=
  modify (upd_host (λ h, log (CallClearTimeout id) (disarm id h))).

Definition clearInterval (id : positive) : Cmd unit :=
  modify (upd_host (λ h, log (CallClearInterval id) (disarm id h))).

(** [new SimplePool()]: a pool with no subscription. *)
Definition newSimplePool : Cmd positive :=
  λ s, let p := nextPool (host s) in
       (p, upd_host (λ h, log (CallNewPool p)
              {| timers := timers h;
                 pools := <[p := {| subscribed := []; onevent := None |}]> (pools h);
                 nextTimer := nextTimer h; nextPool := Pos.succ p;
                 calls := calls h |}) s).

(** What [pool.subscribeMany] does is the client's business: it returns,
    or it throws an [Error] with a message, or it throws another value. *)
Inductive SubscribeOutcome : Type :=
| Subscribed : SubscribeOutcome
| Threw : option jsstring → SubscribeOutcome.

(** [pool.subscribeMany(relays, filter, {onevent: processEvent, ...})] with
    the [processEvent] of render [r]. When it returns, the subscription is
    open on [relays]. *)
Definition subscribeMany (p : positive) (relays : list jsstring) (r : Render)
    (outcome : SubscribeOutcome) : Cmd SubscribeOutcome :=
  λ s, (outcome,
        upd_host (λ h, log (CallSubscribeMany p relays)
          match outcome with
          | Subscribed =>
              upd_pools (insert p {| subscribed := relays; onevent := Some r |}) h
          | Threw _ => h
          end) s).

(** [pool.close(relays)]: the connections to [relays] are closed, and with
    them the subscription on those relays. *)
Definition close_in (relays : list jsstring) (pool : Pool) : Pool :=
  {| subscribed := List.filter (λ u, bool_decide (u ∉ relays)) (subscribed pool);
     onevent := onevent pool |}.

Definition pool_close (p : positive) (relays : list jsstring) : Cmd unit :=
  modify (upd_host (λ h,
    log (CallClose p relays) (upd_pools (alter (close_in relays) p) h))).

(** A string is truthy when it is not empty. *)
Definition truthy (v : option jsstring) : bool :=
  match v with Some (_ :: _) => true | _ => false end.

(** ** The harvest session controller *)

(** [stopHarvesting], lines 83-107, as closed over render [r]. *)
Definition stopHarvesting (r : Render) : Cmd unit :=
  setIsRunning false ;;
  setStatusMessage (js "Stopped") ;;
  (* Clear timers *)
  timeoutId ← read timeoutIdRef;
  (if timeoutId is Some id
   then clearTimeout id ;; set_timeoutIdRef None else skip) ;;
  intervalId ← read intervalIdRef;
  (if intervalId is Some id
   then clearInterval id ;; set_intervalIdRef None else skip) ;;
  (* Close subscription and pool *)
  pool ← read poolRef;
  subId ← read subIdRef;
  (match pool with
   | Some p =>
       if truthy subId then
         let relays := parseRelays (r_relayInput r) in
         pool_close p relays ;;
         set_poolRef None ;;
         set_subIdRef None
       else skip
   | None => skip
   end) ;;
  set_startTimeRef None ;;
  setTimeRemaining None.

(** The callback of the one-shot timeout, lines 135-138. *)
Definition timeoutCallback (r : Render) : Cmd unit :=
  setStatusMessage (js "Timeout reached") ;;
  stopHarvesting r.

(** The callback of the repeating timer, lines 141-154, run when
    [Date.now()] is [now]. [Math.ceil(remaining / 1000)] of a whole number
    of milliseconds. *)
Definition intervalCallback (now : Z) : Cmd unit :=
  startTime ← read startTimeRef;
  match startTime with
  | Some t =>
      if (t =? 0)%Z then skip else
      let elapsed := (now - t)%Z in
      let remaining := Z.max 0 (TIMEOUT_MS - elapsed) in
      setTimeRemaining (Some ((remaining + 999) / 1000)%Z) ;;
      if (remaining <=? 0)%Z then
        intervalId ← read intervalIdRef;
        if intervalId is Some id
        then clearInterval id ;; set_intervalIdRef None else skip
      else skip
  | None => skip
  end.

(** The callback of the grace-period timer, lines 182-186. *)
Definition connectedCallback : Cmd unit :=
  setRelayStatuses (map (λ rs,
    {| url := url rs; status := connected; error_detail := error_detail rs |})).

(** [startHarvesting], lines 110-191, as closed over render [r], when
    [Date.now()] is [now] and the client answers [outcome]. The function
    is [async] but awaits nothing: it runs to its end in one go. *)
Definition startHarvesting (r : Render) (now : Z) (outcome : SubscribeOutcome)
    : Cmd unit :=
  (* Reset state *)
  addressSet_clear ;;
  setFoundAddresses (λ _, []) ;;
  setRelayStatuses (λ _, []) ;;
  setIsRunning true ;;
  setStatusMessage (js "Starting...") ;;
  set_startTimeRef (Some now) ;;
  let relays := parseRelays (r_relayInput r) in
  if (length relays =? 0)%nat then
    setStatusMessage (js "Error: No valid relay URLs provided") ;;
    setIsRunning false
  else
    (* Initialize relay statuses *)
    setRelayStatuses (λ _, map (λ u,
      {| url := u; status := connecting; error_detail := None |}) relays) ;;
    (* Create pool *)
    pool ← newSimplePool;
    set_poolRef (Some pool) ;;
    (* Set up timeout *)
    timeoutId ← setTimeout (TimeoutCb r) TIMEOUT_MS;
    set_timeoutIdRef (Some timeoutId) ;;
    (* Update timer display *)
    intervalId ← setInterval IntervalCb 100;
    set_intervalIdRef (Some intervalId) ;;
    setStatusMessage
      (js "Listening to " ++ js (pretty (length relays)) ++ js " relay(s)...") ;;
    (* Subscribe to kind 0 events *)
    result ← subscribeMany pool relays r outcome;
    match result with
    | Subscribed =>
        set_subIdRef (Some (js "active")) ;;
        _ ← setTimeout ConnectedCb 2000;
        skip
    | Threw err =>
        setStatusMessage
          (js "Error: " ++ match err with
                           | Some message => message
                           | None => js "Unknown error"
                           end) ;;
        stopHarvesting r
    end.

(** The cleanup returned by the effect, lines 194-200, as closed over
    render [r]. *)
Definition unmountCleanup (r : Render) : Cmd unit :=
  if r_isRunning r then stopHarvesting r else skip.

(** The effect has an empty dependency list: it runs once, after the
    first render, and its cleanup is the closure of that render, where
    [relayInput] is [DEFAULT_RELAYS] and [isRunning] is [false]
    (lines 31-32). *)
Definition mountRender : Render := render initialState.

(** The component is unmounted: React runs the cleanup of the mount
    effect. *)
Definition unmount : Cmd unit := unmountCleanup mountRender.

Section Controller.

(** [JSON.parse]: [None] when it throws a SyntaxError. *)
Variable JSON_parse : jsstring → option JsValue.

(** [processEvent], lines 59-80, as closed over render [r]. The [try]
    block changes nothing before the points where it can throw, so the
    empty [catch] leaves the state as it was. *)
Definition processEvent (r : Render) (event : NostrEvent) : Cmd unit :=
  match JSON_parse (content event) with
  | None => skip
  | Some metadata =>
      match get_lud16 metadata with
      | None => skip
      | Some lud16 =>
          if negb (isValidLud16 lud16) then skip else
          match lud16 with
          | JString address =>
              (* Check if we already have this address *)
              seen ← read addressSetRef;
              if bool_decide (address ∈ seen) then skip else
              (* New address found! *)
              addressSet_add address ;;
              setFoundAddresses (λ prev, prev ++ [address]) ;;
              (* Check if we've reached our goal *)
              seen ← read addressSetRef;
              if (MAX_ADDRESSES <=? size seen)%nat then stopHarvesting r
              else skip
          | _ => skip
          end
      end
  end.

(** *** The event loop

    Everything that can happen to a mounted component, one callback at a
    time: the client delivers an event to the handler of a pool whose
    subscription is open on some relay, the host fires an armed timer,
    or the user acts on a control that is enabled (the start button and
    the text area when not running, the stop button when running,
    lines 226, 237, 254). *)

Inductive Action : Type :=
| Deliver : positive → NostrEvent → Action
| Fire : positive → Z → Action
| ClickStart : Z → SubscribeOutcome → Action
| ClickStop : Action
| EditRelays : jsstring → Action.

Definition deliver (p : positive) (event : NostrEvent) : Cmd unit :=
  hostNow ← read host;
  match pools hostNow !! p with
  | Some pool =>
      match subscribed pool, onevent pool with
      | _ :: _, Some r => processEvent r event
      | _, _ => skip
      end
  | None => skip
  end.

(** A one-shot timer is gone once it fires; the repeating one stays. *)
Definition fire (id : positive) (now : Z) : Cmd unit :=
  hostNow ← read host;
  match timers hostNow !! id with
  | Some (TimeoutCb r) => modify (upd_host (disarm id)) ;; timeoutCallback r
  | Some IntervalCb => intervalCallback now
  | Some ConnectedCb => modify (upd_host (disarm id)) ;; connectedCallback
  | None => skip
  end.

Definition act (a : Action) : Cmd unit :=
  running ← read isRunning;
  shown ← read render;
  match a with
  | Deliver p event => deliver p event
  | Fire id now => fire id now
  | ClickStart now outcome =>
      if running : bool then skip else startHarvesting shown now outcome
  | ClickStop => if running : bool then stopHarvesting shown else skip
  | EditRelays text => if running : bool then skip else setRelayInput text
  end.

Definition step (a : Action) (s : State) : State := exec (act a) s.

Definition run (actions : list Action) (s : State) : State :=
  foldl (λ s a, step a s) s actions.

(** The states a mounted component can be in. *)
Inductive reachable : State → Prop :=
| reachable_init : reachable initialState
| reachable_step a s : reachable s → reachable (step a s).

End Controller.

(** ** A JSON reader

    An executable reader for the JSON grammar (ECMA-404), used to run the
    controller on concrete event payloads. The theorems about the
    controller hold for any [JSON_parse]. *)

Module Json.

#[local] Open Scope N_scope.

Definition QUOTE : N := 34.
Definition BACKSLASH : N := 92.

Definition is_json_ws (c : N) : bool :=
  (c =? 32) || (c =? 9) || (c =? 10) || (c =? 13).

Definition is_digit (c : N) : bool := (48 <=? c) && (c <=? 57).

Fixpoint skip_ws (s : jsstring) : jsstring :=
  match s with
  | c :: rest => if is_json_ws c then skip_ws rest else s
  | [] => []
  end.

Definition hex_value (c : N) : option N :=
  if is_digit c then Some (c - 48)
  else if (97 <=? c) && (c <=? 102) then Some (c - 87)
  else if (65 <=? c) && (c <=? 70) then Some (c - 55)
  else None.

Definition hex4 (a b c d : N) : option N :=
  match hex_value a, hex_value b, hex_value c, hex_value d with
  | Some x, Some y, Some z, Some w => Some (((x * 16 + y) * 16 + z) * 16 + w)
  | _, _, _, _ => None
  end.

(** The characters of a string literal after its opening quote, and what
    follows the closing quote. *)
Fixpoint read_string (s acc : jsstring) : option (jsstring * jsstring) :=
  match s with
  | [] => None
  | c :: rest =>
      if c =? QUOTE then Some (reverse acc, rest)
      else if c =? BACKSLASH then
        match rest with
        | e :: rest' =>
            if e =? 117 then
              match rest' with
              | a :: b :: c' :: d :: rest'' =>
                  match hex4 a b c' d with
                  | Some u => read_string rest'' (u :: acc)
                  | None => None
                  end
              | _ => None
              end
            else
              let unescaped :=
                if e =? QUOTE then Some QUOTE
                else if e =? BACKSLASH then Some BACKSLASH
                else if e =? 47 then Some 47
                else if e =? 98 then Some 8
                else if e =? 102 then Some 12
                else if e =? 110 then Some 10
                else if e =? 114 then Some 13
                else if e =? 116 then Some 9
                else None in
              match unescaped with
              | Some u => read_string rest' (u :: acc)
              | None => None
              end
        | [] => None
        end
      else if c <? 32 then None
      else read_string rest (c :: acc)
  end.

Fixpoint read_digits (s : jsstring) : jsstring * jsstring :=
  match s with
  | c :: rest =>
      if is_digit c then let (ds, rest') := read_digits rest in (c :: ds, rest')
      else ([], s)
  | [] => ([], [])
  end.

(** A number literal: sign, integer part without a leading zero, fraction,
    exponent. *)
Definition read_number (s : jsstring) : option (jsstring * jsstring) :=
  let (sign, s1) := match s with
                    | c :: rest => if c =? 45 then ([c], rest) else ([], s)
                    | [] => ([], s)
                    end in
  let (int, s2) := read_digits s1 in
  match int with
  | [] => None
  | d :: ds =>
      if (d =? 48) && negb (length ds =? 0)%nat then None else
      let frac := match s2 with
                  | c :: rest =>
                      if c =? 46 then
                        match read_digits rest with
                        | ([], _) => None
                        | (fs, s3) => Some (c :: fs, s3)
                        end
                      else Some ([], s2)
                  | [] => Some ([], s2)
                  end in
      match frac with
      | None => None
      | Some (fr, s3) =>
          match s3 with
          | e :: rest =>
              if (e =? 101) || (e =? 69) then
                let (esign, s4) :=
                  match rest with
                  | c :: rest' =>
                      if (c =? 43) || (c =? 45) then ([c], rest') else ([], rest)
                  | [] => ([], rest)
                  end in
                match read_digits s4 with
                | ([], _) => None
                | (es, s5) => Some (sign ++ int ++ fr ++ e :: esign ++ es, s5)
                end
              else Some (sign ++ int ++ fr, s3)
          | [] => Some (sign ++ int ++ fr, s3)
          end
      end
  end.

Definition read_word (w : string) (v : JsValue) (s : jsstring)
    : option (JsValue * jsstring) :=
  if startsWith (js w) s then Some (v, drop (String.length w) s) else None.

Fixpoint read_value (fuel : nat) (s : jsstring) : option (JsValue * jsstring) :=
  match fuel with
  | O => None
  | S fuel' =>
      match skip_ws s with
      | [] => None
      | c :: rest =>
          if c =? QUOTE then
            match read_string rest [] with
            | Some (str, rest') => Some (JString str, rest')
            | None => None
            end
          else if c =? 123 then
            match skip_ws rest with
            | c' :: rest' =>
                if c' =? 125 then Some (JObject [], rest')
                else read_members fuel' (c' :: rest') []
            | [] => None
            end
          else if c =? 91 then
            match skip_ws rest with
            | c' :: rest' =>
                if c' =? 93 then Some (JArray [], rest')
                else read_elements fuel' (c' :: rest') []
            | [] => None
            end
          else if c =? 116 then read_word "true" (JBool true) (c :: rest)
          else if c =? 102 then read_word "false" (JBool false) (c :: rest)
          else if c =? 110 then read_word "null" JNull (c :: rest)
          else
            match read_number (c :: rest) with
            | Some (lit, rest') => Some (JNumber lit, rest')
            | None => None
            end
      end
  end
with read_elements (fuel : nat) (s : jsstring) (acc : list JsValue)
    : option (JsValue * jsstring) :=
  match fuel with
  | O => None
  | S fuel' =>
      match read_value fuel' s with
      | Some (v, rest) =>
          match skip_ws rest with
          | c :: rest' =>
              if c =? 44 then read_elements fuel' rest' (acc ++ [v])
              else if c =? 93 then Some (JArray (acc ++ [v]), rest')
              else None
          | [] => None
          end
      | None => None
      end
  end
with read_members (fuel : nat) (s : jsstring) (acc : list (jsstring * JsValue))
    : option (JsValue * jsstring) :=
  match fuel with
  | O => None
  | S fuel' =>
      match skip_ws s with
      | q :: rest =>
          if q =? QUOTE then
            match read_string rest [] with
            | Some (key, rest1) =>
                match skip_ws rest1 with
                | colon :: rest2 =>
                    if colon =? 58 then
                      match read_value fuel' rest2 with
                      | Some (v, rest3) =>
                          match skip_ws rest3 with
                          | c :: rest4 =>
                              if c =? 44 then
                                read_members fuel' rest4 (acc ++ [(key, v)])
                              else if c =? 125 then
                                Some (JObject (acc ++ [(key, v)]), rest4)
                              else None
                          | [] => None
                          end
                      | None => None
                      end
                    else None
                | [] => None
                end
            | None => None
            end
          else None
      | [] => None
      end
  end.

(** The whole text must be one value, with white space around it. Every
    nested call has read at least one character, so the length of the
    text is fuel enough. *)
Definition json_parse (s : jsstring) : option JsValue :=
  match read_value (S (length s)) s with
  | Some (v, rest) => if skip_ws rest is [] then Some v else None
  | None => None
  end.

(** The payload [{"lud16":"<address>"}]. *)
Definition lud16_payload (address : string) : jsstring :=
  js "{" ++ [QUOTE] ++ js "lud16" ++ [QUOTE] ++ js ":" ++
  [QUOTE] ++ js address ++ [QUOTE] ++ js "}".

End Json.

Import Json.


(** ** The shape of a lud16 value *)

(** The shape as the specification words it: exactly one [@] separating a
    non-empty local part from a domain part containing at least one [.],
    and no white space anywhere. *)
Definition lud16_shape_spec (s : jsstring) : Prop :=
  ∃ local domain,
    s = local ++ AT :: domain ∧ (AT ∉ local) ∧ (AT ∉ domain)
    ∧ local ≠ [] ∧ (DOT ∈ domain)
    ∧ Forall (λ c, is_space c = false) s.

(** The same shape with a [.] inside the domain part: some [.] of the
    domain has a character before it and a character after it. *)
Definition lud16_shape (s : jsstring) : Prop :=
  ∃ local domain,
    s = local ++ AT :: domain ∧ (AT ∉ local) ∧ (AT ∉ domain)
    ∧ local ≠ []
    ∧ (∃ before after, domain = before ++ DOT :: after
                       ∧ before ≠ [] ∧ after ≠ [])
    ∧ Forall (λ c, is_space c = false) s.

(** ** Notions used to state the properties *)

(** The pool that [stopHarvesting] closes, if any: the test of line 98. *)
Definition closing (s : State) : option positive :=
  match poolRef s with
  | Some p => if truthy (subIdRef s) then Some p else None
  | None => None
  end.

(** The sequence and the set of discovered addresses hold the same
    elements, and the sequence holds each once. *)
Definition consistent (s : State) : Prop :=
  (∀ a, a ∈ foundAddresses s ↔ a ∈ addressSetRef s)
  ∧ NoDup (foundAddresses s).

(** The state with address [a] recorded: lines 70-71. *)
Definition record_address (a : jsstring) (s : State) : State :=
  upd_foundAddresses (λ prev, prev ++ [a])
    (upd_addressSetRef (λ set, {[a]} ∪ set) s).

Section Carried.

Variable JSON_parse : jsstring → option JsValue.

(** The address an event carries: the [lud16] member of its payload, when
    the payload parses and the member passes [isValidLud16]. *)
Definition carried (event : NostrEvent) : option jsstring :=
  match JSON_parse (content event) with
  | Some metadata =>
      match get_lud16 metadata with
      | Some (JString a) => if isValidLud16 (JString a) then Some a else None
      | _ => None
      end
  | None => None
  end.

End Carried.

(** The resources of a session are released: no pool has an open
    subscription, and neither the timeout nor the repeating timer is
    armed. *)
Definition quiet (s : State) : Prop :=
  (∀ p pool, pools (host s) !! p = Some pool → subscribed pool = [])
  ∧ (∀ id r, timers (host s) !! id ≠ Some (TimeoutCb r))
  ∧ (∀ id, timers (host s) !! id ≠ Some IntervalCb).

(** What holds of every state of a mounted component: the discovered
    addresses are consistent and at most [MAX_ADDRESSES], and fewer while
    the session runs; a pool with an open subscription is the pool of the
    running session, which [stopHarvesting] would close on the very
    relays it is subscribed to; an armed timeout or repeating timer is
    the one of the running session, held by its ref. *)
Definition session_inv (s : State) : Prop :=
  consistent s
  ∧ size (addressSetRef s) ≤ MAX_ADDRESSES
  ∧ (isRunning s = true → size (addressSetRef s) < MAX_ADDRESSES)
  ∧ (∀ p pool, pools (host s) !! p = Some pool → subscribed pool ≠ [] →
       isRunning s = true ∧ closing s = Some p
       ∧ (∀ r, onevent pool = Some r → r_relayInput r = relayInput s)
       ∧ subscribed pool ⊆ parseRelays (relayInput s))
  ∧ (∀ id r, timers (host s) !! id = Some (TimeoutCb r) →
       isRunning s = true ∧ timeoutIdRef s = Some id
       ∧ r_relayInput r = relayInput s)
  ∧ (∀ id, timers (host s) !! id = Some IntervalCb →
       isRunning s = true ∧ intervalIdRef s = Some id).

(** What [stopHarvesting] needs to release everything: the pool it closes
    is the only one with an open subscription, its closure closes it on
    the relays it is subscribed to, and the armed timers are the ones the
    refs hold. *)
Definition releasable (r : Render) (s : State) : Prop :=
  (∀ p pool, pools (host s) !! p = Some pool → subscribed pool ≠ [] →
     closing s = Some p ∧ subscribed pool ⊆ parseRelays (r_relayInput r))
  ∧ (∀ id r', timers (host s) !! id = Some (TimeoutCb r') →
       timeoutIdRef s = Some id)
  ∧ (∀ id, timers (host s) !! id = Some IntervalCb → intervalIdRef s = Some id).

(** The handler of one render called on a sequence of events. *)
Definition processAll (JSON_parse : jsstring → option JsValue) (r : Render)
    (events : list NostrEvent) (s : State) : State :=
  foldl (λ s event, exec (processEvent JSON_parse r event) s) s events.

(** How many times [a] occurs in a sequence. *)
Definition occurrences (a : jsstring) (l : list jsstring) : nat :=
  length (filter (λ b, b = a) l).

(** ** Sample sessions *)

Module Samples.

(** A profile metadata event (kind 0) whose payload is
    [{"lud16":"<address>"}]. *)
Definition lud16_event (address : string) : NostrEvent :=
  {| kind := 0; content := lud16_payload address |}.

Definition addresses21 : list string :=
  ["a01@example.com"; "a02@example.com"; "a03@example.com"; "a04@example.com";
   "a05@example.com"; "a06@example.com"; "a07@example.com"; "a08@example.com";
   "a09@example.com"; "a10@example.com"; "a11@example.com"; "a12@example.com";
   "a13@example.com"; "a14@example.com"; "a15@example.com"; "a16@example.com";
   "a17@example.com"; "a18@example.com"; "a19@example.com"; "a20@example.com";
   "a21@example.com"]%string.

(** The user starts with the default relays; the session is running. *)
Definition started : State :=
  step json_parse (ClickStart 1000 Subscribed) initialState.

(** The client then delivers twenty-one distinct valid addresses. *)
Definition full : State :=
  run json_parse (map (λ a, Deliver 1 (lud16_event a)) addresses21) started.

(** The user empties the relay text and starts. *)
Definition failed_start : State :=
  run json_parse [EditRelays []; ClickStart 1000 Subscribed] initialState.

End Samples.

(** ** Further notions *)

(** [parts.join(sep)] for an array of strings, as in line 17. *)
Fixpoint join (sep : jsstring) (parts : list jsstring) : jsstring :=
  match parts with
  | [] => []
  | [p] => p
  | p :: rest => p ++ sep ++ join sep rest
  end.

(** An endpoint as [parseRelays] returns them: it starts with [wss://],
    holds neither newline nor comma and has no white space at either
    end. *)
Definition endpoint (u : jsstring) : Prop :=
  wss_prefix `prefix_of` u
  ∧ Forall (λ c, relay_separator c = false) u
  ∧ trim u = u.

(** The first occurrences, in order, of the addresses not in [seen]. *)
Fixpoint discover (seen : gset jsstring) (addresses : list jsstring)
    : list jsstring :=
  match addresses with
  | [] => []
  | a :: rest =>
      if bool_decide (a ∈ seen) then discover seen rest
      else a :: discover ({[a]} ∪ seen) rest
  end.

(** The address of scenario C. *)
Definition alice : jsstring := js "alice@example.com".

(** What more holds of every state of a mounted component. When the
    session is not running, the timer refs are empty and there is no
    subscription id; when it is running, the timeout ref and the pool to
    close are set. A timer ref holds the handle of an armed timer of its
    kind. The pool to close is subscribed on exactly the relays of the
    current relay text, which are not none, and the call that subscribed
    it is in the log. Armed timer handles are below the next fresh one.
    Every [close] call in the log follows a [subscribeMany] call on the
    same pool with the same relays. *)
Definition session_inv2 (s : State) : Prop :=
  (isRunning s = false →
     timeoutIdRef s = None ∧ intervalIdRef s = None
     ∧ truthy (subIdRef s) = false)
  ∧ (isRunning s = true →
       (∃ t, timeoutIdRef s = Some t) ∧ (∃ p, closing s = Some p))
  ∧ (∀ t, timeoutIdRef s = Some t →
       ∃ r, timers (host s) !! t = Some (TimeoutCb r))
  ∧ (∀ i, intervalIdRef s = Some i → timers (host s) !! i = Some IntervalCb)
  ∧ (∀ p, closing s = Some p →
       (∃ r, pools (host s) !! p
             = Some {| subscribed := parseRelays (relayInput s);
                       onevent := Some r |})
       ∧ parseRelays (relayInput s) ≠ []
       ∧ CallSubscribeMany p (parseRelays (relayInput s)) ∈ calls (host s))
  ∧ (∀ id, is_Some (timers (host s) !! id) → (id < nextTimer (host s))%positive)
  ∧ (∀ p relays, CallClose p relays ∈ calls (host s) →
       CallSubscribeMany p relays ∈ calls (host s)).

(** A call that is neither [subscribeMany] nor [close]. *)
Definition timer_call (c : Call) : Prop :=
  match c with
  | CallSubscribeMany _ _ | CallClose _ _ => False
  | _ => True
  end.

(** What holds of what a mounted component shows: no listed relay is in
    the [error] status or has an error detail; while the session runs the
    listed urls are the endpoints of the current relay text; a remaining
    time is shown only while running and is not negative. *)
Definition display_inv (s : State) : Prop :=
  Forall (λ rs, status rs ≠ error ∧ error_detail rs = None) (relayStatuses s)
  ∧ (isRunning s = true →
       map url (relayStatuses s) = parseRelays (relayInput s))
  ∧ (isRunning s = false → timeRemaining s = None)
  ∧ (∀ k, timeRemaining s = Some k → (0 ≤ k)%Z).

(** A call the component may make: a subscription is asked on at least
    one relay, each an [endpoint]; a timeout is armed for [TIMEOUT_MS]
    or for the grace period of 2000 ms, the repeating timer for
    100 ms. *)
Definition expected_call (c : Call) : Prop :=
  match c with
  | CallSubscribeMany _ relays => relays ≠ [] ∧ Forall endpoint relays
  | CallSetTimeout _ ms => ms = TIMEOUT_MS ∨ ms = 2000%Z
  | CallSetInterval _ ms => ms = 100%Z
  | _ => True
  end.

(** White space, newline or comma. *)
Definition blank (c : N) : bool := is_space c || relay_separator c.

(** * Properties *)

(** ** Checks by evaluation *)

Example parse_scenario_A :
  parseRelays (js "wss://a.example" ++ [LF] ++ js "wss://b.example,wss://c.example")
  = [js "wss://a.example"; js "wss://b.example"; js "wss://c.example"].
Proof. reflexivity. Qed.

Example parse_empty : parseRelays [] = [].
Proof. reflexivity. Qed.

Example parse_mixed :
  parseRelays (js "  wss://a ,ws://b,, wss://a" ++ [13%N; LF] ++ js "http://c,wss://")
  = [js "wss://a"; js "wss://a"; js "wss://"].
Proof. reflexivity. Qed.

Example parse_default : length (parseRelays DEFAULT_RELAYS) = 5.
Proof. reflexivity. Qed.

Example lud16_accepts :
  isValidLud16 (JString (js "alice@example.com")) = true
  ∧ isValidLud16 (JString (js "a@...")) = true.
Proof. split; reflexivity. Qed.

Example lud16_rejects :
  isValidLud16 (JString (js "not-an-address")) = false
  ∧ isValidLud16 (JString (js "a@.com")) = false
  ∧ isValidLud16 (JString (js "a@b.")) = false
  ∧ isValidLud16 (JString (js "a@b@c.d")) = false
  ∧ isValidLud16 (JString (js "a@b.c d")) = false
  ∧ isValidLud16 (JNumber (js "1")) = false
  ∧ isValidLud16 JUndefined = false.
Proof. repeat split; reflexivity. Qed.

Example json_payload :
  json_parse (lud16_payload "alice@example.com")
  = Some (JObject [(js "lud16", JString (js "alice@example.com"))]).
Proof. vm_compute. reflexivity. Qed.

Example json_values :
  json_parse (js "{ [1, -2.5e3, true, null] }") = None
  ∧ json_parse (js " [1, -2.5e3, true, null,{}] ")
    = Some (JArray [JNumber (js "1"); JNumber (js "-2.5e3"); JBool true;
                    JNull; JObject []])
  ∧ json_parse (js "01") = None ∧ json_parse (js "nul") = None
  ∧ json_parse (js "{} x") = None.
Proof. vm_compute. repeat split; reflexivity. Qed.

Example session_started :
  isRunning Samples.started = true
  ∧ statusMessage Samples.started = js "Listening to 5 relay(s)..."
  ∧ poolRef Samples.started = Some 1%positive
  ∧ timeoutIdRef Samples.started = Some 1%positive
  ∧ intervalIdRef Samples.started = Some 2%positive.
Proof. vm_compute. repeat split; reflexivity. Qed.

(** The twenty-first address stops the session; the grace-period timer
    is the one timer [stopHarvesting] does not cancel. *)
Example session_full :
  isRunning Samples.full = false
  ∧ length (foundAddresses Samples.full) = 21
  ∧ poolRef Samples.full = None
  ∧ timers (host Samples.full) = {[3%positive := ConnectedCb]}.
Proof. vm_compute. repeat split; reflexivity. Qed.
(** ** The relay configuration parser *)

Section ParserFacts.

Implicit Types (s t p : jsstring) (c : N).

Lemma split_nonempty sep s : split sep s ≠ [].
Proof. destruct s as [|c s]; simpl; [done|]. destruct (sep c); [done|]. by destruct (split sep s). Qed.

(** A separator cuts the text in two, and the tokens of both sides follow
    one another. *)
Lemma split_app sep s c t :
  sep c = true → split sep (s ++ c :: t) = split sep s ++ split sep t.
Proof.
  intros Hc. induction s as [|d s IH]; simpl.
  - by rewrite Hc.
  - destruct (sep d); [by rewrite IH|].
    rewrite IH. pose proof (split_nonempty sep s).
    by destruct (split sep s).
Qed.

(** A text without separator is one token. *)
Lemma split_one sep s :
  Forall (λ c, sep c = false) s → split sep s = [s].
Proof.
  induction 1 as [|c s Hc _ IH]; simpl; [done|]. by rewrite Hc, IH.
Qed.

Lemma trimStart_head s c r : trimStart s = c :: r → is_space c = false.
Proof.
  induction s as [|d s IH]; simpl; [done|].
  destruct (is_space d) eqn:Hd; [done|]. by intros [= -> _].
Qed.

Lemma trimStart_suffix s : trimStart s `suffix_of` s.
Proof.
  induction s as [|d s IH]; simpl; [done|].
  destruct (is_space d); [by apply suffix_cons_r|done].
Qed.

(** Dropping leading space leaves alone a text that starts without it. *)
Lemma trimStart_id s c r : s = c :: r → is_space c = false → trimStart s = s.
Proof. intros -> Hc. simpl. by rewrite Hc. Qed.

Lemma trim_head s c r : trim s = c :: r → is_space c = false.
Proof.
  unfold trim, trimEnd. intros H.
  assert (Hsuf : c :: r `prefix_of` trimStart s).
  { rewrite <- H. apply prefix_suffix_reverse. rewrite reverse_involutive.
    apply trimStart_suffix. }
  destruct Hsuf as [k Hk]. by eapply trimStart_head.
Qed.

Lemma trim_last s c : last (trim s) = Some c → is_space c = false.
Proof.
  unfold trim, trimEnd. rewrite last_reverse. intros H.
  destruct (trimStart (reverse (trimStart s))) as [|d r] eqn:E; [done|].
  simpl in H. injection H as ->. by eapply trimStart_head.
Qed.

Lemma startsWith_prefix p s : startsWith p s = true ↔ p `prefix_of` s.
Proof.
  revert s. induction p as [|a p IH]; intros s; simpl.
  - split; [intros _; apply prefix_nil|done].
  - destruct s as [|b s].
    + split; [done|]. intros H. by apply prefix_nil_inv in H.
    + rewrite andb_true_iff, N.eqb_eq, IH. split.
      * intros [-> H]. by apply prefix_cons.
      * intros H. split; [by eapply prefix_cons_inv_1|by eapply prefix_cons_inv_2].
Qed.

Lemma parseRelays_filter input :
  parseRelays input
  = List.filter (startsWith wss_prefix) (map trim (split relay_separator input)).
Proof.
  unfold parseRelays. apply List.filter_ext. intros u.
  destruct u; [done|]. done.
Qed.

Lemma parseRelays_app a c b :
  relay_separator c = true →
  parseRelays (a ++ c :: b) = parseRelays a ++ parseRelays b.
Proof.
  intros Hc. unfold parseRelays.
  by rewrite split_app, map_app, List.filter_app.
Qed.

Lemma parseRelays_one t :
  Forall (λ c, relay_separator c = false) t →
  parseRelays t = if startsWith wss_prefix (trim t) then [trim t] else [].
Proof.
  intros H. rewrite parseRelays_filter, split_one by done. simpl.
  by destruct (startsWith wss_prefix (trim t)).
Qed.

Lemma parseRelays_elem input u :
  u ∈ parseRelays input ↔
  ∃ token, token ∈ split relay_separator input ∧ u = trim token
           ∧ wss_prefix `prefix_of` u.
Proof.
  rewrite parseRelays_filter, list_elem_of_In, List.filter_In, <- list_elem_of_In.
  rewrite list_elem_of_fmap, startsWith_prefix. split.
  - intros [(token & -> & Htok) Hpre]. by exists token.
  - intros (token & Htok & -> & Hpre). split; [by exists token|done].
Qed.

End ParserFacts.

(** ** Regular expressions: the matcher decides the language *)

Section RegexFacts.

Implicit Types (r : regex) (s : jsstring) (c : N).

Lemma lang_seq_inv r1 r2 s :
  lang (Seq r1 r2) s ↔ ∃ s1 s2, s = s1 ++ s2 ∧ lang r1 s1 ∧ lang r2 s2.
Proof.
  split.
  - inversion 1; subst. eauto.
  - intros (s1 & s2 & -> & H1 & H2). by constructor.
Qed.

Lemma nullable_lang r : nullable r = true ↔ lang r [].
Proof.
  induction r as [| |p|r1 IH1 r2 IH2|r1 IH1 r2 IH2|r IH]; simpl.
  - split; [done|]. inversion 1.
  - split; [constructor|done].
  - split; [done|]. inversion 1.
  - rewrite andb_true_iff, IH1, IH2. split.
    + intros [H1 H2]. by apply (lang_seq r1 r2 [] []).
    + intros (s1 & s2 & Hs & H1 & H2)%lang_seq_inv.
      symmetry in Hs. apply app_eq_nil in Hs as [-> ->]. done.
  - rewrite orb_true_iff, IH1, IH2. split.
    + intros [H|H]; [by apply lang_alt_l|by apply lang_alt_r].
    + inversion 1; subst; [by left|by right].
  - split; [constructor|done].
Qed.

Lemma lang_seq_cons r1 r2 c s :
  lang (Seq r1 r2) (c :: s) ↔
  (∃ s1 s2, s = s1 ++ s2 ∧ lang r1 (c :: s1) ∧ lang r2 s2)
  ∨ (lang r1 [] ∧ lang r2 (c :: s)).
Proof.
  split.
  - intros (s1 & s2 & Hs & H1 & H2)%lang_seq_inv.
    destruct s1 as [|d s1]; simpl in Hs.
    + right. by subst.
    + injection Hs as -> ->. left. by exists s1, s2.
  - intros [(s1 & s2 & -> & H1 & H2)|[H1 H2]].
    + by apply (lang_seq r1 r2 (c :: s1) s2).
    + by apply (lang_seq r1 r2 [] (c :: s)).
Qed.

Lemma lang_star_cons_inv r c s :
  lang (Star r) (c :: s) ↔
  ∃ s1 s2, s = s1 ++ s2 ∧ lang r (c :: s1) ∧ lang (Star r) s2.
Proof.
  split.
  - inversion 1; subst. eauto.
  - intros (s1 & s2 & -> & H1 & H2). by constructor.
Qed.

Lemma deriv_lang r c s : lang (deriv c r) s ↔ lang r (c :: s).
Proof.
  revert s. induction r as [| |p|r1 IH1 r2 IH2|r1 IH1 r2 IH2|r IH]; intros s; simpl.
  - split; inversion 1.
  - split; inversion 1.
  - destruct (p c) eqn:Hp.
    + split; inversion 1; subst; [by constructor|constructor].
    + split; inversion 1; subst. congruence.
  - rewrite lang_seq_cons. destruct (nullable r1) eqn:Hn.
    + split.
      * inversion 1 as [| | |? ? ? H1|? ? ? H2| |]; subst.
        -- apply lang_seq_inv in H1 as (s1 & s2 & -> & H1 & H2).
           left. exists s1, s2. by rewrite <- IH1.
        -- right. split; [by apply nullable_lang|by apply IH2].
      * intros [(s1 & s2 & -> & H1 & H2)|[H1 H2]].
        -- apply lang_alt_l. constructor; [by apply IH1|done].
        -- apply lang_alt_r. by apply IH2.
    + rewrite lang_seq_inv. split.
      * intros (s1 & s2 & -> & H1 & H2). left. exists s1, s2. by rewrite <- IH1.
      * intros [(s1 & s2 & -> & H1 & H2)|[H1 H2]].
        -- exists s1, s2. by rewrite IH1.
        -- apply nullable_lang in H1. congruence.
  - split.
    + inversion 1; subst; [apply lang_alt_l; by apply IH1|apply lang_alt_r; by apply IH2].
    + inversion 1; subst; [apply lang_alt_l; by apply IH1|apply lang_alt_r; by apply IH2].
  - rewrite lang_seq_inv, lang_star_cons_inv.
    split; intros (s1 & s2 & -> & H1 & H2); exists s1, s2; by rewrite ?IH in *.
Qed.

(** The matcher accepts exactly the language of the pattern. *)
Lemma matches_lang r s : matches r s = true ↔ lang r s.
Proof.
  revert r. induction s as [|c s IH]; intros r; simpl.
  - apply nullable_lang.
  - by rewrite IH, deriv_lang.
Qed.

Lemma lang_class p s : lang (Class p) s ↔ ∃ c, s = [c] ∧ p c = true.
Proof.
  split.
  - inversion 1; subst. eauto.
  - intros (c & -> & Hp). by constructor.
Qed.

Lemma lang_star_class p s : lang (Star (Class p)) s ↔ Forall (λ c, p c = true) s.
Proof.
  split.
  - remember (Star (Class p)) as r eqn:Hr. induction 1 as [| | | | | |? c s1 s2 H1 _ H2 IH2];
      try discriminate; [constructor|].
    injection Hr as ->. apply lang_class in H1 as (d & [= -> ->] & Hp).
    simpl. constructor; [done|]. by apply IH2.
  - induction 1 as [|c s Hp _ IH]; [constructor|].
    apply (lang_star_cons (Class p) c [] s); [by constructor|done].
Qed.

Lemma lang_plus_class p s :
  lang (Plus (Class p)) s ↔ s ≠ [] ∧ Forall (λ c, p c = true) s.
Proof.
  unfold Plus. rewrite lang_seq_inv. split.
  - intros (s1 & s2 & -> & H1 & H2).
    apply lang_class in H1 as (c & -> & Hp). apply lang_star_class in H2.
    split; [done|]. by constructor.
  - intros [Hne H]. destruct H as [|c s Hp H]; [done|].
    exists [c], s. split; [done|]. rewrite lang_class, lang_star_class. eauto.
Qed.

End RegexFacts.

(** ** The lud16 validator *)

Section ValidatorFacts.

Implicit Types (s : jsstring) (c : N).

Lemma not_at_or_space_spec c :
  not_at_or_space c = true ↔ c ≠ AT ∧ is_space c = false.
Proof.
  unfold not_at_or_space. rewrite negb_true_iff, orb_false_iff, N.eqb_neq. done.
Qed.

Lemma Forall_not_at_or_space s :
  Forall (λ c, not_at_or_space c = true) s
  ↔ (AT ∉ s) ∧ Forall (λ c, is_space c = false) s.
Proof.
  induction s as [|c s IH].
  - split; [intros _; split; [apply not_elem_of_nil|constructor]|constructor].
  - rewrite !Forall_cons, IH, not_at_or_space_spec, not_elem_of_cons.
    split; [intros [[? ?] [? ?]]|intros [[? ?] [? ?]]]; auto.
Qed.

(** The words of [LUD16_REGEX]. *)
Lemma lang_LUD16_REGEX s :
  lang LUD16_REGEX s ↔
  ∃ l x y, s = l ++ AT :: x ++ DOT :: y
           ∧ l ≠ [] ∧ x ≠ [] ∧ y ≠ []
           ∧ Forall (λ c, not_at_or_space c = true) (l ++ x ++ y).
Proof.
  unfold LUD16_REGEX. split.
  - intros (l & s1 & -> & Hl & H1)%lang_seq_inv.
    apply lang_seq_inv in H1 as (a & s2 & -> & Ha & H2).
    apply lang_seq_inv in H2 as (x & s3 & -> & Hx & H3).
    apply lang_seq_inv in H3 as (d & y & -> & Hd & Hy).
    apply lang_class in Ha as (ca & -> & <-%N.eqb_eq).
    apply lang_class in Hd as (cd & -> & <-%N.eqb_eq).
    apply lang_plus_class in Hl as [? ?]. apply lang_plus_class in Hx as [? ?].
    apply lang_plus_class in Hy as [? ?].
    exists l, x, y. rewrite !Forall_app. done.
  - intros (l & x & y & -> & Hl & Hx & Hy & F).
    rewrite !Forall_app in F. destruct F as (Fl & Fx & Fy).
    apply (lang_seq _ _ l); [by apply lang_plus_class|].
    apply (lang_seq _ _ [AT]); [constructor; by apply N.eqb_eq|].
    apply (lang_seq _ _ x); [by apply lang_plus_class|].
    apply (lang_seq _ _ [DOT]); [constructor; by apply N.eqb_eq|].
    by apply lang_plus_class.
Qed.

Lemma is_space_AT : is_space AT = false.
Proof. reflexivity. Qed.
Lemma is_space_DOT : is_space DOT = false.
Proof. reflexivity. Qed.

Lemma lang_LUD16_REGEX_shape s : lang LUD16_REGEX s ↔ lud16_shape s.
Proof.
  rewrite lang_LUD16_REGEX. unfold lud16_shape. split.
  - intros (l & x & y & -> & Hl & Hx & Hy & F).
    rewrite !Forall_app, !Forall_not_at_or_space in F.
    destruct F as ((? & ?) & (? & ?) & (? & ?)).
    exists l, (x ++ DOT :: y). split; [done|]. split; [done|]. split.
    { rewrite elem_of_app, elem_of_cons. intros [?|[?|?]]; done. }
    split; [done|]. split; [by exists x, y|].
    rewrite Forall_app, Forall_cons, Forall_app, Forall_cons.
    auto using is_space_AT, is_space_DOT.
  - intros (l & d & -> & Hal & Had & Hl & (x & y & -> & Hx & Hy) & F).
    exists l, x, y. split; [done|]. do 3 (split; [done|]).
    rewrite Forall_app, Forall_cons, Forall_app, Forall_cons in F.
    destruct F as (? & _ & ? & _ & ?).
    rewrite elem_of_app, elem_of_cons in Had.
    rewrite !Forall_app, !Forall_not_at_or_space. tauto.
Qed.

Lemma isValidLud16_shape (value : JsValue) :
  isValidLud16 value = true ↔ ∃ s, value = JString s ∧ lud16_shape s.
Proof.
  destruct value; simpl; try (split; [done|by intros (? & ? & _)]).
  rewrite matches_lang, lang_LUD16_REGEX_shape. split; [eauto|].
  by intros (? & [= <-] & ?).
Qed.

Lemma lud16_shape_weaken s : lud16_shape s → lud16_shape_spec s.
Proof.
  intros (l & d & -> & ? & ? & ? & (x & y & -> & _ & _) & ?).
  exists l, (x ++ DOT :: y). repeat split; try done.
  rewrite elem_of_app, elem_of_cons. auto.
Qed.

End ValidatorFacts.

(** ** Commands: what [stopHarvesting] changes *)

Ltac cmd_unfold :=
  cbv [exec stopHarvesting timeoutCallback intervalCallback connectedCallback
       startHarvesting unmountCleanup unmount processEvent deliver fire act step
       mbind mret cmd_bind cmd_ret skip read modify
       setRelayInput setIsRunning setFoundAddresses setRelayStatuses
       setStatusMessage setTimeRemaining set_poolRef set_timeoutIdRef
       set_intervalIdRef set_subIdRef set_startTimeRef addressSet_clear
       addressSet_add setTimeout setInterval clearTimeout clearInterval
       newSimplePool subscribeMany pool_close truthy closing record_address
       upd_relayInput upd_isRunning upd_foundAddresses upd_relayStatuses
       upd_statusMessage upd_timeRemaining upd_poolRef upd_addressSetRef
       upd_timeoutIdRef upd_intervalIdRef upd_subIdRef upd_startTimeRef
       upd_host log arm disarm upd_pools
       relayInput isRunning foundAddresses relayStatuses statusMessage
       timeRemaining poolRef addressSetRef timeoutIdRef intervalIdRef subIdRef
       startTimeRef host timers pools nextTimer nextPool calls
       fst snd].

(** All the cases of the refs that [stopHarvesting] tests. *)
Ltac stop_cases s :=
  destruct s as [? ? ? ? ? ? [?|] ? [?|] [?|] [[|? ?]|] ? [? ? ? ? ?]].

Section StopFacts.

Implicit Types (r : Render) (s : State).

Lemma stop_frame r s :
  let s' := exec (stopHarvesting r) s in
  relayInput s' = relayInput s ∧ foundAddresses s' = foundAddresses s
  ∧ relayStatuses s' = relayStatuses s ∧ addressSetRef s' = addressSetRef s
  ∧ nextTimer (host s') = nextTimer (host s)
  ∧ nextPool (host s') = nextPool (host s).
Proof. stop_cases s; cmd_unfold; repeat split. Qed.

Lemma stop_cleared r s :
  let s' := exec (stopHarvesting r) s in
  isRunning s' = false ∧ statusMessage s' = js "Stopped"
  ∧ timeoutIdRef s' = None ∧ intervalIdRef s' = None
  ∧ startTimeRef s' = None ∧ timeRemaining s' = None.
Proof. stop_cases s; cmd_unfold; repeat split. Qed.

Lemma stop_refs r s :
  let s' := exec (stopHarvesting r) s in
  poolRef s' = (if closing s is Some _ then None else poolRef s)
  ∧ subIdRef s' = (if closing s is Some _ then None else subIdRef s).
Proof. stop_cases s; cmd_unfold; repeat split. Qed.

Lemma stop_timers r s :
  timers (host (exec (stopHarvesting r) s))
  = (if intervalIdRef s is Some i then delete i else λ m, m)
      ((if timeoutIdRef s is Some t then delete t else λ m, m)
         (timers (host s))).
Proof. stop_cases s; cmd_unfold; reflexivity. Qed.

Lemma stop_pools r s :
  pools (host (exec (stopHarvesting r) s))
  = (if closing s is Some p
     then alter (close_in (parseRelays (r_relayInput r))) p (pools (host s))
     else pools (host s)).
Proof. stop_cases s; cmd_unfold; reflexivity. Qed.

Lemma stop_calls r s :
  calls (host (exec (stopHarvesting r) s))
  = calls (host s)
    ++ (if timeoutIdRef s is Some t then [CallClearTimeout t] else [])
    ++ (if intervalIdRef s is Some i then [CallClearInterval i] else [])
    ++ (if closing s is Some p
        then [CallClose p (parseRelays (r_relayInput r))] else []).
Proof.
  stop_cases s; cmd_unfold; rewrite <- ?app_assoc; simpl;
    rewrite ?app_nil_r; reflexivity.
Qed.

(** Stopping twice is stopping once, whatever closures do the stopping. *)
Lemma stop_stop r r' s :
  exec (stopHarvesting r') (exec (stopHarvesting r) s)
  = exec (stopHarvesting r) s.
Proof. stop_cases s; cmd_unfold; reflexivity. Qed.

(** [stopHarvesting] changes nothing exactly on the states it leaves. *)
Lemma stop_noop_iff r s :
  exec (stopHarvesting r) s = s ↔
  isRunning s = false ∧ statusMessage s = js "Stopped"
  ∧ timeoutIdRef s = None ∧ intervalIdRef s = None ∧ closing s = None
  ∧ startTimeRef s = None ∧ timeRemaining s = None.
Proof.
  split.
  - intros Heq.
    destruct (stop_cleared r s) as (Hrun & Hmsg & Htid & Hiid & Hst & Htr).
    destruct (stop_refs r s) as (Hpool & _).
    rewrite Heq in Hrun, Hmsg, Htid, Hiid, Hst, Htr, Hpool.
    repeat split; try done.
    unfold closing in *. destruct (poolRef s) as [p|]; [|done].
    by destruct (truthy (subIdRef s)).
  - intros (Hrun & Hmsg & Htid & Hiid & Hcl & Hst & Htr).
    stop_cases s; unfold closing in Hcl; simpl in *; subst; done.
Qed.

Lemma unmountCleanup_running r s :
  r_isRunning r = true →
  exec (unmountCleanup r) s = exec (stopHarvesting r) s.
Proof. unfold unmountCleanup. by intros ->. Qed.

(** The timeout callback ends in the state that [stopHarvesting] alone
    gives: its status message is overwritten. *)
Lemma timeout_is_stop r s :
  exec (timeoutCallback r) s = exec (stopHarvesting r) s.
Proof. stop_cases s; cmd_unfold; reflexivity. Qed.

End StopFacts.

(** ** Commands: what [processEvent] changes *)

Section EventFacts.

Variable JSON_parse : jsstring → option JsValue.
Implicit Types (r : Render) (s : State) (e : NostrEvent) (a : jsstring).

(** An event that carries no valid address changes nothing. *)
Lemma processEvent_none r e s :
  carried JSON_parse e = None → exec (processEvent JSON_parse r e) s = s.
Proof.
  unfold carried, processEvent.
  destruct (JSON_parse (content e)) as [metadata|]; [|done].
  destruct (get_lud16 metadata) as [lud16|]; [|done].
  destruct lud16; try done.
  destruct (isValidLud16 _); done.
Qed.

(** An address already in the set changes nothing. *)
Lemma processEvent_seen r e s a :
  carried JSON_parse e = Some a → a ∈ addressSetRef s →
  exec (processEvent JSON_parse r e) s = s.
Proof.
  unfold carried, processEvent.
  destruct (JSON_parse (content e)) as [metadata|]; [|done].
  destruct (get_lud16 metadata) as [lud16|]; [|done].
  destruct lud16; try done.
  destruct (isValidLud16 _); [|done]. intros [= ->] Hin. simpl.
  unfold mbind, cmd_bind, read, exec. simpl. by rewrite bool_decide_eq_true_2.
Qed.

(** A new address is recorded, and the session stops when the set has
    reached [MAX_ADDRESSES]. *)
Lemma processEvent_new r e s a :
  carried JSON_parse e = Some a → a ∉ addressSetRef s →
  exec (processEvent JSON_parse r e) s
  = if (MAX_ADDRESSES <=? size ({[a]} ∪ addressSetRef s))%nat
    then exec (stopHarvesting r) (record_address a s)
    else record_address a s.
Proof.
  unfold carried, processEvent.
  destruct (JSON_parse (content e)) as [metadata|]; [|done].
  destruct (get_lud16 metadata) as [lud16|]; [|done].
  destruct lud16; try done.
  destruct (isValidLud16 _); [|done]. intros [= ->] Hin. cbn [negb].
  unfold mbind, cmd_bind, read, exec. cbv beta iota zeta.
  rewrite bool_decide_eq_false_2 by done.
  unfold addressSet_add, setFoundAddresses, modify, record_address.
  cbv beta iota zeta. cbn [addressSetRef upd_foundAddresses upd_addressSetRef].
  by destruct (MAX_ADDRESSES <=? _)%nat.
Qed.

End EventFacts.

(** ** The sequence and the set of discovered addresses *)

Section ConsistentFacts.

Implicit Types (r : Render) (s : State) (e : NostrEvent) (a : jsstring).

Lemma record_address_fields a s :
  foundAddresses (record_address a s) = foundAddresses s ++ [a]
  ∧ addressSetRef (record_address a s) = {[a]} ∪ addressSetRef s.
Proof. by destruct s. Qed.

Lemma consistent_record a s :
  consistent s → a ∉ addressSetRef s → consistent (record_address a s).
Proof.
  intros [Hsame Hnodup] Hnew. unfold consistent.
  destruct (record_address_fields a s) as [-> ->]. split.
  - intros b. rewrite elem_of_app, list_elem_of_singleton, elem_of_union,
      elem_of_singleton, Hsame. tauto.
  - apply NoDup_app. split; [done|]. split; [|apply NoDup_singleton].
    intros b Hb ->%list_elem_of_singleton. by apply Hnew, Hsame.
Qed.

Lemma consistent_stop r s :
  consistent s → consistent (exec (stopHarvesting r) s).
Proof.
  unfold consistent. destruct (stop_frame r s) as (_ & -> & _ & -> & _). done.
Qed.

(** [startHarvesting] always ends with both empty. *)
Lemma start_addresses r now outcome s :
  let s' := exec (startHarvesting r now outcome) s in
  foundAddresses s' = [] ∧ addressSetRef s' = ∅.
Proof.
  unfold startHarvesting.
  destruct (length (parseRelays (r_relayInput r)) =? 0)%nat;
    destruct outcome; stop_cases s; cmd_unfold; done.
Qed.

Lemma consistent_start r now outcome s :
  consistent (exec (startHarvesting r now outcome) s).
Proof.
  unfold consistent. destruct (start_addresses r now outcome s) as [-> ->].
  split; [|apply NoDup_nil_2]. intros a. rewrite elem_of_nil. set_solver.
Qed.

Variable JSON_parse : jsstring → option JsValue.

Lemma consistent_processEvent r e s :
  consistent s → consistent (exec (processEvent JSON_parse r e) s).
Proof.
  intros Hs. destruct (carried JSON_parse e) as [a|] eqn:Ha.
  - destruct (decide (a ∈ addressSetRef s)) as [Hin|Hnew].
    + by rewrite (processEvent_seen _ r e s a).
    + rewrite (processEvent_new _ r e s a) by done.
      destruct (_ <=? _)%nat; [apply consistent_stop|]; by apply consistent_record.
  - by rewrite processEvent_none.
Qed.

End ConsistentFacts.

(** ** The session invariant *)

Section InvariantFacts.

Implicit Types (r : Render) (s : State) (e : NostrEvent) (a : jsstring).

Lemma inv_quiet s : session_inv s → isRunning s = false → quiet s.
Proof.
  intros (_ & _ & _ & Hpools & Htimeout & Hinterval) Hstopped.
  split; [|split].
  - intros p pool Hp. destruct (subscribed pool) as [|u us] eqn:E; [done|].
    destruct (Hpools p pool Hp) as (Hrun & _); [by rewrite E|congruence].
  - intros id r Hid. destruct (Htimeout id r Hid) as (Hrun & _). congruence.
  - intros id Hid. destruct (Hinterval id Hid) as (Hrun & _). congruence.
Qed.

Lemma quiet_inv s :
  consistent s → size (addressSetRef s) ≤ MAX_ADDRESSES →
  isRunning s = false → quiet s → session_inv s.
Proof.
  intros Hc Hsize Hstopped (Hpools & Htimeout & Hinterval).
  split; [done|]. split; [done|]. split; [congruence|]. split; [|split].
  - intros p pool Hp Hsub. by destruct (Hsub (Hpools p pool Hp)).
  - intros id r Hid. by destruct (Htimeout id r Hid).
  - intros id Hid. by destruct (Hinterval id Hid).
Qed.

Lemma close_in_all relays pool :
  subscribed pool ⊆ relays → subscribed (close_in relays pool) = [].
Proof.
  intros Hsub. unfold close_in. simpl.
  induction (subscribed pool) as [|u us IH]; [done|]. simpl.
  rewrite bool_decide_eq_false_2.
  - apply IH. intros v Hv. apply Hsub. by right.
  - intros Hnot. apply Hnot, Hsub. by left.
Qed.

Lemma stop_quiet r s : releasable r s → quiet (exec (stopHarvesting r) s).
Proof.
  intros (Hpools & Htimeout & Hinterval).
  assert (Hold : ∀ id cb,
    timers (host (exec (stopHarvesting r) s)) !! id = Some cb →
    timers (host s) !! id = Some cb
    ∧ timeoutIdRef s ≠ Some id ∧ intervalIdRef s ≠ Some id).
  { intros id cb. rewrite stop_timers. intros Hid.
    destruct (intervalIdRef s) as [i|], (timeoutIdRef s) as [t|];
      repeat (apply lookup_delete_Some in Hid as [? Hid]);
      repeat split; congruence. }
  split; [|split].
  - intros p pool. rewrite stop_pools.
    destruct (closing s) as [q|] eqn:Hq.
    + rewrite lookup_alter. destruct (decide (q = p)) as [->|Hne]; simpl.
      * destruct (pools (host s) !! p) as [pool0|] eqn:Hp; [|done].
        intros [= <-]. destruct (subscribed pool0) as [|u us] eqn:E.
        { unfold close_in. by rewrite E. }
        apply close_in_all. by apply (Hpools p pool0 Hp); rewrite E.
      * intros Hp. destruct (subscribed pool) as [|u us] eqn:E; [done|].
        destruct (Hpools p pool Hp) as (Hcl & _); [by rewrite E|congruence].
    + intros Hp. destruct (subscribed pool) as [|u us] eqn:E; [done|].
      destruct (Hpools p pool Hp) as (Hcl & _); [by rewrite E|congruence].
  - intros id r' Hid. destruct (Hold id _ Hid) as (Hid' & Hne & _).
    by apply Hne, (Htimeout id r').
  - intros id Hid. destruct (Hold id _ Hid) as (Hid' & _ & Hne).
    by apply Hne, Hinterval.
Qed.

Lemma inv_releasable r s :
  session_inv s → r_relayInput r = relayInput s → releasable r s.
Proof.
  intros (_ & _ & _ & Hpools & Htimeout & Hinterval) Hr. split; [|split].
  - intros p pool Hp Hsub. rewrite Hr.
    by destruct (Hpools p pool Hp Hsub) as (_ & ? & _ & ?).
  - intros id r' Hid. by destruct (Htimeout id r' Hid) as (_ & ? & _).
  - intros id Hid. by destruct (Hinterval id Hid) as (_ & ?).
Qed.

Lemma inv_stop r s :
  session_inv s → r_relayInput r = relayInput s →
  session_inv (exec (stopHarvesting r) s).
Proof.
  intros Hs Hr. apply quiet_inv.
  - apply consistent_stop, Hs.
  - destruct (stop_frame r s) as (_ & _ & _ & -> & _). apply Hs.
  - apply stop_cleared.
  - by apply stop_quiet, inv_releasable.
Qed.

Lemma record_address_frame a s :
  let s' := record_address a s in
  relayInput s' = relayInput s ∧ isRunning s' = isRunning s
  ∧ closing s' = closing s ∧ timeoutIdRef s' = timeoutIdRef s
  ∧ intervalIdRef s' = intervalIdRef s ∧ host s' = host s.
Proof. by destruct s. Qed.

Lemma size_record a s :
  a ∉ addressSetRef s →
  size (addressSetRef (record_address a s)) = S (size (addressSetRef s)).
Proof.
  intros Hnew. destruct (record_address_fields a s) as [_ ->].
  rewrite size_union by set_solver. by rewrite size_singleton.
Qed.

Variable JSON_parse : jsstring → option JsValue.

(** A handler that the client calls for an open subscription keeps the
    invariant. *)
Lemma inv_processEvent r e s p pool :
  session_inv s →
  pools (host s) !! p = Some pool → subscribed pool ≠ [] →
  onevent pool = Some r →
  session_inv (exec (processEvent JSON_parse r e) s).
Proof.
  intros Hs Hp Hsub Hr.
  destruct (carried JSON_parse e) as [a|] eqn:Ha;
    [|by rewrite processEvent_none].
  destruct (decide (a ∈ addressSetRef s)) as [Hin|Hnew];
    [by rewrite (processEvent_seen _ r e s a)|].
  rewrite (processEvent_new _ r e s a) by done.
  pose proof (inv_releasable r s Hs) as Hrel.
  destruct Hs as (Hc & Hsize & Hlt & Hpools & Htimeout & Hinterval).
  destruct (Hpools p pool Hp Hsub) as (Hrun & _ & Hsame & _).
  specialize (Hlt Hrun). specialize (Hrel (Hsame r Hr)).
  pose proof (size_record a s Hnew) as Hsz.
  destruct (record_address_frame a s) as (Hri & Hrun' & Hcl & Htid & Hiid & Hhost).
  destruct (record_address_fields a s) as [_ Hset].
  rewrite <- Hset, Hsz. destruct (_ <=? _)%nat eqn:Hmax.
  - apply quiet_inv.
    + by apply consistent_stop, consistent_record.
    + destruct (stop_frame r (record_address a s)) as (_ & _ & _ & -> & _). lia.
    + apply stop_cleared.
    + apply stop_quiet. unfold releasable. by rewrite Hhost, Hcl, Htid, Hiid.
  - apply Nat.leb_gt in Hmax. split; [by apply consistent_record|].
    split; [lia|]. rewrite Hhost, Hri, Hrun', Hcl, Htid, Hiid, Hsz.
    split; [done|]. done.
Qed.

End InvariantFacts.

(** ** Commands: what [startHarvesting] and the timer callbacks change *)

Section StartFacts.

Implicit Types (r : Render) (s : State).

Lemma length_eqb_0 {A : Type} (l : list A) :
  (length l =? 0)%nat = match l with [] => true | _ => false end.
Proof. by destruct l. Qed.

(** With no endpoint, [startHarvesting] only resets the component. *)
Lemma start_empty r now outcome s :
  parseRelays (r_relayInput r) = [] →
  exec (startHarvesting r now outcome) s
  = {| relayInput := relayInput s; isRunning := false; foundAddresses := [];
       relayStatuses := [];
       statusMessage := js "Error: No valid relay URLs provided";
       timeRemaining := timeRemaining s; poolRef := poolRef s;
       addressSetRef := ∅; timeoutIdRef := timeoutIdRef s;
       intervalIdRef := intervalIdRef s; subIdRef := subIdRef s;
       startTimeRef := Some now; host := host s |}.
Proof.
  intros Hnone. unfold startHarvesting. rewrite Hnone. by destruct s.
Qed.

(** With endpoints and a client that accepts the subscription. *)
Lemma start_subscribed r now s :
  parseRelays (r_relayInput r) ≠ [] →
  let relays := parseRelays (r_relayInput r) in
  let h := host s in
  exec (startHarvesting r now Subscribed) s
  = {| relayInput := relayInput s; isRunning := true; foundAddresses := [];
       relayStatuses :=
         map (λ u, {| url := u; status := connecting; error_detail := None |})
           relays;
       statusMessage :=
         js "Listening to " ++ js (pretty (length relays)) ++ js " relay(s)...";
       timeRemaining := timeRemaining s; poolRef := Some (nextPool h);
       addressSetRef := ∅; timeoutIdRef := Some (nextTimer h);
       intervalIdRef := Some (Pos.succ (nextTimer h));
       subIdRef := Some (js "active"); startTimeRef := Some now;
       host :=
         {| timers :=
              <[Pos.succ (Pos.succ (nextTimer h)) := ConnectedCb]>
                (<[Pos.succ (nextTimer h) := IntervalCb]>
                   (<[nextTimer h := TimeoutCb r]> (timers h)));
            pools :=
              <[nextPool h := {| subscribed := relays; onevent := Some r |}]>
                (<[nextPool h := {| subscribed := []; onevent := None |}]>
                   (pools h));
            nextTimer := Pos.succ (Pos.succ (Pos.succ (nextTimer h)));
            nextPool := Pos.succ (nextPool h);
            calls :=
              calls h ++
              [CallNewPool (nextPool h);
               CallSetTimeout (nextTimer h) TIMEOUT_MS;
               CallSetInterval (Pos.succ (nextTimer h)) 100;
               CallSubscribeMany (nextPool h) relays;
               CallSetTimeout (Pos.succ (Pos.succ (nextTimer h))) 2000] |} |}.
Proof.
  intros Hsome. unfold startHarvesting. rewrite length_eqb_0.
  destruct (parseRelays (r_relayInput r)) as [|u us] eqn:E; [done|].
  destruct s as [? ? ? ? ? ? ? ? ? ? ? ? [? ? ? ? ?]]. cmd_unfold.
  rewrite <- !app_assoc. reflexivity.
Qed.

(** With endpoints and a client that throws: the timers are armed, then
    [stopHarvesting] runs. *)
Lemma start_threw r now err s :
  parseRelays (r_relayInput r) ≠ [] →
  let relays := parseRelays (r_relayInput r) in
  let h := host s in
  exec (startHarvesting r now (Threw err)) s
  = exec (stopHarvesting r)
      {| relayInput := relayInput s; isRunning := true; foundAddresses := [];
         relayStatuses :=
           map (λ u, {| url := u; status := connecting; error_detail := None |})
             relays;
         statusMessage :=
           js "Error: " ++ (if err is Some message then message
                            else js "Unknown error");
         timeRemaining := timeRemaining s; poolRef := Some (nextPool h);
         addressSetRef := ∅; timeoutIdRef := Some (nextTimer h);
         intervalIdRef := Some (Pos.succ (nextTimer h));
         subIdRef := subIdRef s; startTimeRef := Some now;
         host :=
           {| timers :=
                <[Pos.succ (nextTimer h) := IntervalCb]>
                  (<[nextTimer h := TimeoutCb r]> (timers h));
              pools :=
                <[nextPool h := {| subscribed := []; onevent := None |}]>
                  (pools h);
              nextTimer := Pos.succ (Pos.succ (nextTimer h));
              nextPool := Pos.succ (nextPool h);
              calls :=
                calls h ++
                [CallNewPool (nextPool h);
                 CallSetTimeout (nextTimer h) TIMEOUT_MS;
                 CallSetInterval (Pos.succ (nextTimer h)) 100;
                 CallSubscribeMany (nextPool h) relays] |} |}.
Proof.
  intros Hsome. unfold startHarvesting. rewrite length_eqb_0.
  destruct (parseRelays (r_relayInput r)) as [|u us] eqn:E; [done|].
  destruct s as [? ? ? ? ? ? ? ? ? ? [[|? ?]|] ? [? ? ? ? ?]]; cmd_unfold;
    rewrite <- !app_assoc; reflexivity.
Qed.

(** The repeating timer touches the remaining time and, at the end of
    the time budget, disarms itself. *)
Lemma interval_frame now s :
  let s' := exec (intervalCallback now) s in
  relayInput s' = relayInput s ∧ isRunning s' = isRunning s
  ∧ foundAddresses s' = foundAddresses s ∧ addressSetRef s' = addressSetRef s
  ∧ closing s' = closing s ∧ timeoutIdRef s' = timeoutIdRef s
  ∧ pools (host s') = pools (host s)
  ∧ ((timers (host s') = timers (host s)
      ∧ intervalIdRef s' = intervalIdRef s)
     ∨ ∃ i, intervalIdRef s = Some i
            ∧ timers (host s') = delete i (timers (host s))).
Proof.
  unfold intervalCallback.
  destruct s as [? ? ? ? ? ? ? ? ? [?|] ? [t|] [? ? ? ? ?]]; cmd_unfold;
    try destruct (t =? 0)%Z; try destruct (_ <=? 0)%Z;
    repeat split; eauto.
Qed.

Lemma connected_frame s :
  let s' := exec connectedCallback s in
  relayInput s' = relayInput s ∧ isRunning s' = isRunning s
  ∧ foundAddresses s' = foundAddresses s ∧ addressSetRef s' = addressSetRef s
  ∧ closing s' = closing s ∧ timeoutIdRef s' = timeoutIdRef s
  ∧ host s' = host s.
Proof. by destruct s. Qed.

End StartFacts.

(** ** Every step of the event loop keeps the invariant *)

Section StepFacts.

Implicit Types (r : Render) (s : State) (e : NostrEvent) (a : Action).

(** A state that differs only by having fewer timers armed, with the
    repeating timer gone when its ref is. *)
Lemma inv_fewer_timers s s' :
  session_inv s →
  relayInput s' = relayInput s → isRunning s' = isRunning s →
  foundAddresses s' = foundAddresses s → addressSetRef s' = addressSetRef s →
  closing s' = closing s → timeoutIdRef s' = timeoutIdRef s →
  pools (host s') = pools (host s) →
  (∀ id cb, timers (host s') !! id = Some cb → timers (host s) !! id = Some cb) →
  (∀ id, timers (host s') !! id = Some IntervalCb →
     intervalIdRef s = Some id → intervalIdRef s' = Some id) →
  session_inv s'.
Proof.
  intros (Hc & Hsize & Hlt & Hpools & Htimeout & Hinterval)
    Hri Hrun Hfa Hset Hcl Htid Hpl Htm Hiid.
  unfold session_inv, consistent. rewrite Hri, Hrun, Hfa, Hset, Hcl, Htid, Hpl.
  do 4 (split; [done|]). split.
  - intros id r Hid. by apply Htimeout, Htm.
  - intros id Hid. destruct (Hinterval id (Htm _ _ Hid)) as [? ?]. auto.
Qed.

Lemma inv_disarm id s : session_inv s → session_inv (upd_host (disarm id) s).
Proof.
  intros Hs. apply (inv_fewer_timers s); try done; try by destruct s.
  destruct s as [? ? ? ? ? ? ? ? ? ? ? ? [? ? ? ? ?]]. simpl.
  intros id' cb. rewrite lookup_delete_Some. tauto.
Qed.

Lemma inv_interval now s :
  session_inv s → session_inv (exec (intervalCallback now) s).
Proof.
  intros Hs.
  destruct (interval_frame now s) as (? & ? & ? & ? & ? & ? & ? & Htm).
  apply (inv_fewer_timers s); try done.
  - intros id cb. destruct Htm as [[-> _]|(i & _ & ->)]; [done|].
    rewrite lookup_delete_Some. tauto.
  - intros id. destruct Htm as [[_ ->]|(i & Hi & ->)]; [done|].
    rewrite lookup_delete_Some. intros [Hne _] Hid. congruence.
Qed.

Lemma inv_connected s : session_inv s → session_inv (exec connectedCallback s).
Proof.
  intros Hs. destruct (connected_frame s) as (? & ? & ? & ? & ? & ? & Hh).
  apply (inv_fewer_timers s); try done; rewrite ?Hh; done.
Qed.

Lemma size_empty_lt : size (∅ : gset jsstring) < MAX_ADDRESSES.
Proof. rewrite size_empty. unfold MAX_ADDRESSES. lia. Qed.

Lemma size_empty_le : size (∅ : gset jsstring) ≤ MAX_ADDRESSES.
Proof. pose proof size_empty_lt. lia. Qed.

Lemma consistent_empty s :
  foundAddresses s = [] → addressSetRef s = ∅ → consistent s.
Proof.
  intros Hfa Hset. unfold consistent. rewrite Hfa, Hset.
  split; [|apply NoDup_nil_2]. intros a. rewrite elem_of_nil. set_solver.
Qed.

(** The start button is enabled only when the session is not running. *)
Lemma inv_start now outcome s :
  session_inv s → isRunning s = false →
  session_inv (exec (startHarvesting (render s) now outcome) s).
Proof.
  intros Hs Hstopped.
  destruct (inv_quiet s Hs Hstopped) as (Qpools & Qtimeout & Qinterval).
  destruct (parseRelays (r_relayInput (render s))) as [|u us] eqn:Hrelays.
  - rewrite start_empty by done. apply quiet_inv; try done.
    + by apply consistent_empty.
    + apply size_empty_le.
  - destruct outcome as [|err].
    + rewrite start_subscribed by (by rewrite Hrelays).
      split; [by apply consistent_empty|].
      split; [apply size_empty_le|]. split; [intros _; apply size_empty_lt|].
      cbn [host pools timers isRunning closing poolRef subIdRef relayInput
           timeoutIdRef intervalIdRef].
      split; [|split].
      * intros p pool [[<- <-]|[Hne Hp]]%lookup_insert_Some Hsub.
        { repeat split; try done. by intros r [= <-]. }
        apply lookup_insert_Some in Hp as [[_ <-]|[_ Hp]]; [done|].
        by destruct (Hsub (Qpools p pool Hp)).
      * intros id r [[_ [=]]|[_ Hid]]%lookup_insert_Some.
        apply lookup_insert_Some in Hid as [[_ [=]]|[_ Hid]].
        apply lookup_insert_Some in Hid as [[<- [= <-]]|[_ Hid]]; [done|].
        by destruct (Qtimeout id r).
      * intros id [[_ [=]]|[_ Hid]]%lookup_insert_Some.
        apply lookup_insert_Some in Hid as [[<- _]|[_ Hid]]; [done|].
        apply lookup_insert_Some in Hid as [[_ [=]]|[_ Hid]].
        by destruct (Qinterval id).
    + rewrite start_threw by (by rewrite Hrelays).
      match goal with |- session_inv (exec _ ?m) => set (mid := m) end.
      apply quiet_inv.
      * by apply consistent_stop, consistent_empty.
      * destruct (stop_frame (render s) mid) as (_ & _ & _ & -> & _).
        apply size_empty_le.
      * apply stop_cleared.
      * apply stop_quiet. split; [|split]; simpl.
        -- intros p pool [[_ <-]|[_ Hp]]%lookup_insert_Some Hsub; [done|].
           by destruct (Hsub (Qpools p pool Hp)).
        -- intros id r [[_ [=]]|[_ Hid]]%lookup_insert_Some.
           apply lookup_insert_Some in Hid as [[<- _]|[_ Hid]]; [done|].
           by destruct (Qtimeout id r).
        -- intros id [[<- _]|[_ Hid]]%lookup_insert_Some; [done|].
           apply lookup_insert_Some in Hid as [[_ [=]]|[_ Hid]].
           by destruct (Qinterval id).
Qed.

Lemma inv_edit text s :
  session_inv s → isRunning s = false →
  session_inv (upd_relayInput (λ _, text) s).
Proof.
  intros Hs Hstopped. pose proof (inv_quiet s Hs Hstopped) as Hq.
  destruct Hs as (Hc & Hsize & _). destruct s. by apply quiet_inv.
Qed.

Lemma inv_initial : session_inv initialState.
Proof.
  apply quiet_inv.
  - by apply consistent_empty.
  - apply size_empty_le.
  - done.
  - split; [|split]; simpl; intros *; by rewrite lookup_empty.
Qed.

Variable JSON_parse : jsstring → option JsValue.

Lemma step_deliver p e s :
  step JSON_parse (Deliver p e) s
  = match pools (host s) !! p with
    | Some pool =>
        match subscribed pool, onevent pool with
        | _ :: _, Some r => exec (processEvent JSON_parse r e) s
        | _, _ => s
        end
    | None => s
    end.
Proof.
  unfold step, act, deliver, exec, mbind, cmd_bind, read. simpl.
  destruct (pools (host s) !! p) as [pool|]; [|done].
  by destruct (subscribed pool), (onevent pool).
Qed.

Lemma step_fire id now s :
  step JSON_parse (Fire id now) s
  = match timers (host s) !! id with
    | Some (TimeoutCb r) =>
        exec (stopHarvesting r) (upd_host (disarm id) s)
    | Some IntervalCb => exec (intervalCallback now) s
    | Some ConnectedCb => exec connectedCallback (upd_host (disarm id) s)
    | None => s
    end.
Proof.
  unfold step, act, fire, exec, mbind, cmd_bind, read. simpl.
  by destruct (timers (host s) !! id) as [[r| |]|].
Qed.

Lemma step_click_start now outcome s :
  step JSON_parse (ClickStart now outcome) s
  = if isRunning s then s
    else exec (startHarvesting (render s) now outcome) s.
Proof. unfold step, act, exec, mbind, cmd_bind, read. simpl. by destruct (isRunning s). Qed.

Lemma step_click_stop s :
  step JSON_parse ClickStop s
  = if isRunning s then exec (stopHarvesting (render s)) s else s.
Proof. unfold step, act, exec, mbind, cmd_bind, read. simpl. by destruct (isRunning s). Qed.

Lemma step_edit text s :
  step JSON_parse (EditRelays text) s
  = if isRunning s then s else upd_relayInput (λ _, text) s.
Proof. unfold step, act, exec, mbind, cmd_bind, read. simpl. by destruct (isRunning s). Qed.

Theorem inv_step a s : session_inv s → session_inv (step JSON_parse a s).
Proof.
  intros Hs. destruct a as [p e|id now|now outcome| |text].
  - rewrite step_deliver.
    destruct (pools (host s) !! p) as [pool|] eqn:Hp; [|done].
    destruct (subscribed pool) as [|u us] eqn:Hsub; [done|].
    destruct (onevent pool) as [r|] eqn:Hr; [|done].
    apply (inv_processEvent _ r e s p pool); try done. by rewrite Hsub.
  - rewrite step_fire.
    destruct (timers (host s) !! id) as [[r| |]|] eqn:Hid; [| | |done].
    + apply inv_stop; [by apply inv_disarm|].
      destruct Hs as (_ & _ & _ & _ & Htimeout & _).
      destruct (Htimeout id r Hid) as (_ & _ & ->). by destruct s.
    + by apply inv_interval.
    + by apply inv_connected, inv_disarm.
  - rewrite step_click_start. destruct (isRunning s) eqn:Hrun; [done|].
    by apply inv_start.
  - rewrite step_click_stop. destruct (isRunning s) eqn:Hrun; [|done].
    by apply inv_stop.
  - rewrite step_edit. destruct (isRunning s) eqn:Hrun; [done|].
    by apply inv_edit.
Qed.

Theorem reachable_inv s : reachable JSON_parse s → session_inv s.
Proof. induction 1; [apply inv_initial|by apply inv_step]. Qed.

End StepFacts.

(** ** The discovered addresses along a session *)

Section SessionFacts.

Implicit Types (r : Render) (s : State) (e : NostrEvent) (a : Action).

Lemma consistent_length s :
  consistent s → length (foundAddresses s) = size (addressSetRef s).
Proof.
  intros [Hsame Hnodup]. unfold size, set_size. simpl.
  apply Permutation_length, NoDup_Permutation; [done|apply NoDup_elements|].
  intros x. by rewrite elem_of_elements.
Qed.

Variable JSON_parse : jsstring → option JsValue.

(** [processEvent] only ever appends. *)
Lemma processEvent_monotone r e s :
  let s' := exec (processEvent JSON_parse r e) s in
  foundAddresses s `prefix_of` foundAddresses s'
  ∧ addressSetRef s ⊆ addressSetRef s'.
Proof.
  simpl. destruct (carried JSON_parse e) as [x|] eqn:Hx;
    [|by rewrite processEvent_none].
  destruct (decide (x ∈ addressSetRef s)) as [Hin|Hnew];
    [by rewrite (processEvent_seen _ r e s x)|].
  rewrite (processEvent_new _ r e s x) by done.
  destruct (record_address_fields x s) as [Hfa Hset].
  assert (foundAddresses s `prefix_of` foundAddresses (record_address x s)
          ∧ addressSetRef s ⊆ addressSetRef (record_address x s)) as Hmono.
  { rewrite Hfa, Hset. split; [by apply prefix_app_r|set_solver]. }
  destruct (_ <=? _)%nat; [|done].
  by destruct (stop_frame r (record_address x s)) as (_ & -> & _ & -> & _).
Qed.

(** A step that is neither a start nor a delivery to an open subscription
    leaves the discovered addresses as they are. *)
Lemma step_frame a s :
  (∀ now outcome, a ≠ ClickStart now outcome) →
  (∀ p e pool, a = Deliver p e → pools (host s) !! p = Some pool →
     subscribed pool = []) →
  foundAddresses (step JSON_parse a s) = foundAddresses s
  ∧ addressSetRef (step JSON_parse a s) = addressSetRef s.
Proof.
  intros Hstart Hclosed. destruct a as [p e|id now|now outcome| |text].
  - rewrite step_deliver.
    destruct (pools (host s) !! p) as [pool|] eqn:Hp; [|done].
    by rewrite (Hclosed p e pool eq_refl Hp).
  - rewrite step_fire. destruct (timers (host s) !! id) as [[r| |]|]; [| | |done].
    + destruct (stop_frame r (upd_host (disarm id) s)) as (_ & -> & _ & -> & _).
      by destruct s.
    + by destruct (interval_frame now s) as (_ & _ & -> & -> & _).
    + destruct (connected_frame (upd_host (disarm id) s)) as (_ & _ & -> & -> & _).
      by destruct s.
  - by destruct (Hstart now outcome).
  - rewrite step_click_stop. destruct (isRunning s); [|done].
    by destruct (stop_frame (render s) s) as (_ & -> & _ & -> & _).
  - rewrite step_edit. destruct (isRunning s); [done|]. by destruct s.
Qed.

Lemma step_monotone a s :
  (∀ now outcome, a ≠ ClickStart now outcome) →
  foundAddresses s `prefix_of` foundAddresses (step JSON_parse a s)
  ∧ addressSetRef s ⊆ addressSetRef (step JSON_parse a s).
Proof.
  intros Hstart.
  assert (Hother : (∀ p e, a ≠ Deliver p e) →
    foundAddresses s `prefix_of` foundAddresses (step JSON_parse a s)
    ∧ addressSetRef s ⊆ addressSetRef (step JSON_parse a s)).
  { intros Hnot. destruct (step_frame a s Hstart) as [-> ->]; [|done].
    intros p e pool ->. by destruct (Hnot p e). }
  destruct a as [p e| | | |]; try by apply Hother.
  rewrite step_deliver.
  destruct (pools (host s) !! p) as [pool|]; [|done].
  destruct (subscribed pool), (onevent pool); try done.
  apply processEvent_monotone.
Qed.

End SessionFacts.

(** ** Sessions of events *)

Section DedupFacts.

Implicit Types (r : Render) (s : State) (e : NostrEvent) (a : jsstring).

Lemma occurrences_NoDup a (l : list jsstring) :
  NoDup l → a ∈ l → occurrences a l = 1.
Proof.
  unfold occurrences. induction 1 as [|b l Hb Hl IH]; [by intros ?%elem_of_nil|].
  intros [Heq|Hin]%elem_of_cons.
  - subst b. rewrite filter_cons_True by done. simpl. f_equal.
    destruct (filter (λ b : jsstring, b = a) l) as [|x xs] eqn:E; [done|].
    assert (x ∈ filter (λ b : jsstring, b = a) l) as [-> Hx]%list_elem_of_filter
      by (rewrite E; left).
    done.
  - rewrite filter_cons_False; [by apply IH|]. by intros ->.
Qed.

Variable JSON_parse : jsstring → option JsValue.

Lemma processAll_app r es1 es2 s :
  processAll JSON_parse r (es1 ++ es2) s
  = processAll JSON_parse r es2 (processAll JSON_parse r es1 s).
Proof. apply foldl_app. Qed.

Lemma processAll_consistent r es s :
  consistent s → consistent (processAll JSON_parse r es s).
Proof.
  revert s. induction es as [|e es IH]; intros s Hs; [done|].
  simpl. by apply IH, consistent_processEvent.
Qed.

Lemma processAll_monotone r es s :
  addressSetRef s ⊆ addressSetRef (processAll JSON_parse r es s).
Proof.
  revert s. induction es as [|e es IH]; intros s; [done|]. simpl.
  etrans; [|apply IH]. apply processEvent_monotone.
Qed.

Lemma processEvent_records r e s a :
  carried JSON_parse e = Some a →
  a ∈ addressSetRef (exec (processEvent JSON_parse r e) s).
Proof.
  intros Ha. destruct (decide (a ∈ addressSetRef s)) as [Hin|Hnew].
  - by rewrite (processEvent_seen _ r e s a).
  - rewrite (processEvent_new _ r e s a) by done.
    assert (a ∈ addressSetRef (record_address a s)) as Hrec.
    { destruct (record_address_fields a s) as [_ ->]. set_solver. }
    destruct (_ <=? _)%nat; [|done].
    by destruct (stop_frame r (record_address a s)) as (_ & _ & _ & -> & _).
Qed.

End DedupFacts.

(** * The properties of the specification *)

Import Samples.

Lemma reachable_run JSON_parse actions s :
  reachable JSON_parse s → reachable JSON_parse (run JSON_parse actions s).
Proof.
  revert s. induction actions as [|a actions IH]; intros s Hs; [done|].
  simpl. by apply IH, reachable_step.
Qed.

(** C1. In a session the discovered addresses never shrink:
    every step of the event loop other than a new start keeps the
    sequence as a prefix and the set as a subset of what follows. In every
    state the mounted component can reach, with events delivered to pools
    whose subscription is open, the set and the sequence hold at most
    [MAX_ADDRESSES] (21) addresses. The call of [processEvent] that brings
    the set to the maximum runs [stopHarvesting] before it returns: the
    session is not running and both timer refs are cleared. In a reachable
    state at the maximum the session is stopped, no subscription is open
    and no timer of the session is armed, so no further step other than a
    new start, the delivery of an event included, changes the sequence or
    the set. *)
Theorem C1_session_bound (JSON_parse : jsstring → option JsValue) :
  (∀ a s, (∀ now outcome, a ≠ ClickStart now outcome) →
     foundAddresses s `prefix_of` foundAddresses (step JSON_parse a s)
     ∧ addressSetRef s ⊆ addressSetRef (step JSON_parse a s))
  ∧ (∀ s, reachable JSON_parse s →
       size (addressSetRef s) ≤ MAX_ADDRESSES
       ∧ length (foundAddresses s) ≤ MAX_ADDRESSES)
  ∧ (∀ r e s, size (addressSetRef s) < MAX_ADDRESSES →
       size (addressSetRef (exec (processEvent JSON_parse r e) s))
       = MAX_ADDRESSES →
       isRunning (exec (processEvent JSON_parse r e) s) = false
       ∧ timeoutIdRef (exec (processEvent JSON_parse r e) s) = None
       ∧ intervalIdRef (exec (processEvent JSON_parse r e) s) = None)
  ∧ (∀ s, reachable JSON_parse s → size (addressSetRef s) = MAX_ADDRESSES →
       isRunning s = false ∧ quiet s
       ∧ ∀ a, (∀ now outcome, a ≠ ClickStart now outcome) →
           foundAddresses (step JSON_parse a s) = foundAddresses s
           ∧ addressSetRef (step JSON_parse a s) = addressSetRef s).
Proof.
  split; [|split; [|split]].
  - apply step_monotone.
  - intros s Hs%reachable_inv.
    rewrite (consistent_length s) by apply Hs. split; apply Hs.
  - intros r e s Hlt.
    destruct (carried JSON_parse e) as [x|] eqn:Hx;
      [|rewrite processEvent_none by done; lia].
    destruct (decide (x ∈ addressSetRef s)) as [Hin|Hnew];
      [rewrite (processEvent_seen _ r e s x) by done; lia|].
    rewrite (processEvent_new _ r e s x) by done.
    pose proof (size_record x s Hnew) as Hsz.
    destruct (record_address_fields x s) as [_ Hset]. rewrite <- Hset, Hsz.
    destruct (_ <=? _)%nat eqn:Hmax.
    + intros _. by destruct (stop_cleared r (record_address x s)) as (? & _ & ? & ? & _).
    + apply Nat.leb_gt in Hmax. lia.
  - intros s Hs%reachable_inv Hfull.
    assert (isRunning s = false) as Hstopped.
    { destruct Hs as (_ & _ & Hlt & _). destruct (isRunning s); [|done].
      specialize (Hlt eq_refl). lia. }
    pose proof (inv_quiet s Hs Hstopped) as Hq.
    split; [done|]. split; [done|]. intros a Hstart.
    apply step_frame; [done|]. intros p e pool _. apply Hq.
Qed.

Lemma C1_witness :
  reachable json_parse full
  ∧ size (addressSetRef full) = MAX_ADDRESSES
  ∧ isRunning full = false ∧ quiet full.
Proof.
  assert (reachable json_parse full) as Hreach.
  { apply reachable_run, reachable_step, reachable_init. }
  assert (size (addressSetRef full) = MAX_ADDRESSES) as Hfull.
  { vm_compute. reflexivity. }
  destruct (C1_session_bound json_parse) as (_ & _ & _ & Hmax).
  destruct (Hmax full Hreach Hfull) as (Hstopped & Hquiet & _).
  exact (conj Hreach (conj Hfull (conj Hstopped Hquiet))).
Defined.

(** C2, as amended. [isValidLud16] accepts a value if and only if it is a
    string with exactly one [@] separating a non-empty local part from a
    domain part in which some [.] has at least one character before it
    and at least one after it, with no white space anywhere. Every such
    string has the shape the specification words. An event whose [lud16]
    value the validator rejects leaves the whole state as it was, and so
    does the event of scenario D. *)
Theorem C2_validator_shape (JSON_parse : jsstring → option JsValue) :
  (∀ value, isValidLud16 value = true ↔
            ∃ s, value = JString s ∧ lud16_shape s)
  ∧ (∀ s, lud16_shape s → lud16_shape_spec s)
  ∧ (∀ r event metadata value st,
       JSON_parse (content event) = Some metadata →
       get_lud16 metadata = Some value →
       isValidLud16 value = false →
       exec (processEvent JSON_parse r event) st = st)
  ∧ (∀ r st,
       exec (processEvent json_parse r (lud16_event "not-an-address")) st = st).
Proof.
  split; [apply isValidLud16_shape|]. split; [apply lud16_shape_weaken|].
  assert (Hdiscard : ∀ parse r event metadata value st,
    parse (content event) = Some metadata →
    get_lud16 metadata = Some value →
    isValidLud16 value = false →
    exec (processEvent parse r event) st = st).
  { intros parse r event metadata value st Hparse Hget Hbad.
    apply processEvent_none. unfold carried. rewrite Hparse, Hget.
    destruct value; try done. by rewrite Hbad. }
  split; [apply Hdiscard|]. intros r st.
  by apply (Hdiscard json_parse r _
              (JObject [(js "lud16", JString (js "not-an-address"))])
              (JString (js "not-an-address"))).
Qed.

Lemma C2_witness :
  json_parse (content (lud16_event "a@.com"))
  = Some (JObject [(js "lud16", JString (js "a@.com"))])
  ∧ exec (processEvent json_parse (render initialState) (lud16_event "a@.com"))
      started
    = started.
Proof.
  assert (json_parse (content (lud16_event "a@.com"))
          = Some (JObject [(js "lud16", JString (js "a@.com"))])) as Hparse.
  { vm_compute. reflexivity. }
  split; [exact Hparse|].
  destruct (C2_validator_shape json_parse) as (_ & _ & Hdiscard & _).
  apply (Hdiscard (render initialState) (lud16_event "a@.com") _
           (JString (js "a@.com")) started Hparse); reflexivity.
Defined.

(** C2, as stated, fails: [a@.com] has exactly one [@], a non-empty local
    part, a domain part containing a [.] and no white space, and the
    validator rejects it, because nothing precedes the [.] in the
    domain. *)
Lemma C2_counterexample :
  lud16_shape_spec (js "a@.com")
  ∧ isValidLud16 (JString (js "a@.com")) = false.
Proof.
  split; [|reflexivity].
  exists (js "a"), (js ".com"). split; [reflexivity|].
  split; [by apply (bool_decide_unpack _)|].
  split; [by apply (bool_decide_unpack _)|].
  split; [done|]. split; [by apply (bool_decide_unpack _)|].
  by apply (bool_decide_unpack _).
Qed.

(** C3. The timeout callback does record ["Timeout reached"] and call
    [stopHarvesting], whose cleanup is the same for every reason; but
    [stopHarvesting] sets the status message to ["Stopped"] itself, so
    the callback ends in exactly the state a plain stop gives, and the
    terminal status message after a timeout is that of a user stop. *)
Theorem C3_timeout_status_overwritten :
  (∀ r s, exec (timeoutCallback r) s = exec (stopHarvesting r) s)
  ∧ (∀ r s, statusMessage (exec (timeoutCallback r) s) = js "Stopped")
  ∧ js "Stopped" ≠ js "Timeout reached"
  ∧ timers (host started) !! 1%positive = Some (TimeoutCb (render initialState))
  ∧ statusMessage (step json_parse (Fire 1 46000) started) = js "Stopped"
  ∧ statusMessage (step json_parse ClickStop started) = js "Stopped"
  ∧ statusMessage full = js "Stopped".
Proof.
  split; [apply timeout_is_stop|]. split.
  { intros r s. rewrite timeout_is_stop. apply stop_cleared. }
  split; [done|]. vm_compute. repeat split.
Qed.

(** C4. The cleanup of the mount effect reads [isRunning] as it was at
    the first render, [false], so it never calls [stopHarvesting]:
    unmounting changes nothing. Unmounting the running session [started]
    leaves its timeout and repeating timer armed and its subscription
    open. *)
Theorem C4_unmount_never_stops :
  (∀ s, exec unmount s = s)
  ∧ isRunning started = true
  ∧ timers (host (exec unmount started)) !! 1%positive
    = Some (TimeoutCb (render initialState))
  ∧ timers (host (exec unmount started)) !! 2%positive = Some IntervalCb
  ∧ (subscribed <$> pools (host (exec unmount started)) !! 1%positive)
    = Some (parseRelays DEFAULT_RELAYS)
  ∧ parseRelays DEFAULT_RELAYS ≠ []
  ∧ calls (host (exec unmount started)) = calls (host started).
Proof.
  split; [done|]. vm_compute. repeat split; done.
Qed.



(** C6. Starting from a state whose sequence and set agree, when two of
    the events handed to [processEvent] carry the same valid address
    (whatever other events come before, between and after them), the
    address occurs exactly once in the discovered sequence and is in the
    set. *)
Theorem C6_dedup_idempotent (JSON_parse : jsstring → option JsValue)
    (r : Render) (s : State) (a : jsstring)
    (before between after : list NostrEvent) (e1 e2 : NostrEvent) :
  consistent s →
  carried JSON_parse e1 = Some a →
  carried JSON_parse e2 = Some a →
  let s' := processAll JSON_parse r
              (before ++ e1 :: between ++ e2 :: after) s in
  occurrences a (foundAddresses s') = 1 ∧ a ∈ addressSetRef s'.
Proof.
  intros Hs H1 H2 s'.
  assert (consistent s') as Hs' by by apply processAll_consistent.
  assert (a ∈ addressSetRef s') as Hin.
  { unfold s'. rewrite processAll_app. simpl.
    apply processAll_monotone. by apply processEvent_records. }
  split; [|done].
  apply occurrences_NoDup; [apply Hs'|]. by apply Hs'.
Qed.

(** Scenario C: the same payload twice in a running session. *)
Lemma C6_witness :
  consistent started
  ∧ carried json_parse (lud16_event "alice@example.com")
    = Some (js "alice@example.com")
  ∧ foundAddresses
      (processAll json_parse (render initialState)
         [lud16_event "alice@example.com"; lud16_event "alice@example.com"]
         started)
    = [js "alice@example.com"]
  ∧ occurrences (js "alice@example.com")
      (foundAddresses
         (processAll json_parse (render initialState)
            ([] ++ lud16_event "alice@example.com"
                :: [] ++ lud16_event "alice@example.com" :: [])
            started))
    = 1.
Proof.
  assert (consistent started) as Hs.
  { apply consistent_empty; reflexivity. }
  assert (carried json_parse (lud16_event "alice@example.com")
          = Some (js "alice@example.com")) as Hcarried.
  { vm_compute. reflexivity. }
  split; [exact Hs|]. split; [exact Hcarried|]. split; [vm_compute; reflexivity|].
  exact (proj1 (C6_dedup_idempotent json_parse (render initialState) started
                  (js "alice@example.com") [] [] []
                  (lud16_event "alice@example.com")
                  (lud16_event "alice@example.com") Hs Hcarried Hcarried)).
Defined.

(** C7. When the relay text parses to no endpoint, [startHarvesting] ends
    with the status message ["Error: No valid relay URLs provided"] and
    the session not running; it creates no pool, attempts no
    subscription and arms no timer: the host, its call log included, and
    the pool and subscription refs are as before. *)
Theorem C7_start_without_endpoints (r : Render) (now : Z)
    (outcome : SubscribeOutcome) (s : State) :
  parseRelays (r_relayInput r) = [] →
  let s' := exec (startHarvesting r now outcome) s in
  statusMessage s' = js "Error: No valid relay URLs provided"
  ∧ isRunning s' = false
  ∧ host s' = host s
  ∧ poolRef s' = poolRef s ∧ subIdRef s' = subIdRef s.
Proof. intros Hnone s'. subst s'. by rewrite start_empty. Qed.

(** Scenario B: the empty text. *)
Lemma C7_witness :
  parseRelays [] = []
  ∧ statusMessage failed_start = js "Error: No valid relay URLs provided"
  ∧ isRunning failed_start = false
  ∧ calls (host failed_start) = [].
Proof.
  assert (parseRelays (r_relayInput (mkRender [] false)) = []) as Hnone
    by reflexivity.
  split; [exact Hnone|].
  destruct (C7_start_without_endpoints (mkRender [] false) 1000 Subscribed
              (step json_parse (EditRelays []) initialState) Hnone)
    as (Hmsg & Hrun & Hhost & _).
  split; [exact Hmsg|]. split; [exact Hrun|].
  exact (f_equal calls Hhost).
Defined.

(** C8. [stopHarvesting] is idempotent: stopping a session that
    [stopHarvesting] has already stopped changes nothing at all (running
    flag, status message, discovered addresses, remaining time, timers,
    pool and subscription refs, host calls), whichever closures do the
    stopping. It is a no-op exactly on the states it leaves: not running,
    status message ["Stopped"], no timer ref, no pool to close, no start
    time and no remaining time. On any state that is not running it
    leaves the running flag, the discovered sequence and set, the relay
    text and the relay statuses as they are. In the event loop a click
    on stop reaches [stopHarvesting] only while the session runs: on
    every state that is not running the click changes nothing. *)
Theorem C8_stop_idempotent :
  (∀ r r' s,
     exec (stopHarvesting r') (exec (stopHarvesting r) s)
     = exec (stopHarvesting r) s)
  ∧ (∀ r s,
       exec (stopHarvesting r) s = s ↔
       isRunning s = false ∧ statusMessage s = js "Stopped"
       ∧ timeoutIdRef s = None ∧ intervalIdRef s = None ∧ closing s = None
       ∧ startTimeRef s = None ∧ timeRemaining s = None)
  ∧ (∀ r s, isRunning s = false →
       isRunning (exec (stopHarvesting r) s) = isRunning s
       ∧ foundAddresses (exec (stopHarvesting r) s) = foundAddresses s
       ∧ addressSetRef (exec (stopHarvesting r) s) = addressSetRef s
       ∧ relayInput (exec (stopHarvesting r) s) = relayInput s
       ∧ relayStatuses (exec (stopHarvesting r) s) = relayStatuses s
       ∧ statusMessage (exec (stopHarvesting r) s) = js "Stopped")
  ∧ (∀ JSON_parse s, isRunning s = false → step JSON_parse ClickStop s = s).
Proof.
  split; [apply stop_stop|]. split; [apply stop_noop_iff|]. split.
  - intros r s Hstopped.
    destruct (stop_frame r s) as (-> & -> & -> & -> & _).
    destruct (stop_cleared r s) as (-> & -> & _).
    by rewrite Hstopped.
  - intros JSON_parse s Hstopped. by rewrite step_click_stop, Hstopped.
Qed.

(** A session stopped by a click, and a start that failed. *)
Lemma C8_witness :
  isRunning (step json_parse ClickStop started) = false
  ∧ step json_parse ClickStop (step json_parse ClickStop started)
    = step json_parse ClickStop started
  ∧ isRunning failed_start = false
  ∧ step json_parse ClickStop failed_start = failed_start.
Proof.
  assert (isRunning (step json_parse ClickStop started) = false) as Hstopped
    by (vm_compute; reflexivity).
  assert (isRunning failed_start = false) as Hfailed by reflexivity.
  destruct C8_stop_idempotent as (_ & _ & _ & Hclick).
  exact (conj Hstopped
           (conj (Hclick json_parse (step json_parse ClickStop started) Hstopped)
              (conj Hfailed (Hclick json_parse failed_start Hfailed)))).
Defined.

(** C9. [startHarvesting] ends with the sequence and the set both empty,
    and [processEvent] and [stopHarvesting] keep them consistent: the same
    elements in both, each once in the sequence. So they are consistent
    in every state the mounted component can reach. *)
Theorem C9_sequence_and_set_agree (JSON_parse : jsstring → option JsValue) :
  (∀ r now outcome s, consistent (exec (startHarvesting r now outcome) s))
  ∧ (∀ r event s,
       consistent s → consistent (exec (processEvent JSON_parse r event) s))
  ∧ (∀ r s, consistent s → consistent (exec (stopHarvesting r) s))
  ∧ (∀ s, reachable JSON_parse s → consistent s).
Proof.
  split; [apply consistent_start|]. split; [apply consistent_processEvent|].
  split; [apply consistent_stop|]. intros s Hs%reachable_inv. apply Hs.
Qed.

Lemma C9_witness :
  consistent started
  ∧ consistent
      (exec (processEvent json_parse (render initialState)
               (lud16_event "alice@example.com")) started).
Proof.
  assert (consistent started) as Hs.
  { apply consistent_empty; reflexivity. }
  split; [exact Hs|].
  destruct (C9_sequence_and_set_agree json_parse) as (_ & Hevent & _).
  exact (Hevent (render initialState) (lud16_event "alice@example.com")
           started Hs).
Defined.

(** C10. When the relay text parses to no endpoint, the failed
    [startHarvesting] has still emptied the discovered sequence and set:
    what an earlier run found is gone although no run starts. *)
Theorem C10_failed_start_clears (r : Render) (now : Z)
    (outcome : SubscribeOutcome) (s : State) :
  parseRelays (r_relayInput r) = [] →
  let s' := exec (startHarvesting r now outcome) s in
  foundAddresses s' = [] ∧ addressSetRef s' = ∅ ∧ isRunning s' = false.
Proof. intros Hnone s'. subst s'. by rewrite start_empty. Qed.

(** A run finds twenty-one addresses; the user empties the relay text and
    starts again. *)
Lemma C10_witness :
  parseRelays [] = []
  ∧ length (foundAddresses full) = 21
  ∧ foundAddresses
      (run json_parse [EditRelays []; ClickStart 2000 Subscribed] full)
    = [].
Proof.
  assert (parseRelays (r_relayInput (mkRender [] false)) = []) as Hnone
    by reflexivity.
  split; [exact Hnone|]. split; [vm_compute; reflexivity|].
  exact (proj1 (C10_failed_start_clears (mkRender [] false) 2000 Subscribed
                  (step json_parse (EditRelays []) full) Hnone)).
Defined.

(** * Further properties *)

(** ** The parser and [join] *)

Section JoinFacts.

Implicit Types (s t u : jsstring) (c : N).

Lemma split_no_separator sep s token :
  token ∈ split sep s → Forall (λ c, sep c = false) token.
Proof.
  revert token. induction s as [|d s IH]; simpl; intros token.
  - intros ->%list_elem_of_singleton. constructor.
  - destruct (sep d) eqn:Hd.
    + intros [->|Hin]%elem_of_cons; [constructor|by apply IH].
    + pose proof (split_nonempty sep s) as Hne.
      destruct (split sep s) as [|tok toks]; [done|].
      intros [->|Hin]%elem_of_cons.
      * constructor; [done|]. apply IH. by left.
      * apply IH. by right.
Qed.

Lemma trimStart_Forall (P : N → Prop) s : Forall P s → Forall P (trimStart s).
Proof.
  intros H. destruct (trimStart_suffix s) as [k Hk].
  rewrite Hk in H. by apply Forall_app in H as [_ ?].
Qed.

Lemma trim_Forall (P : N → Prop) s : Forall P s → Forall P (trim s).
Proof.
  intros H. unfold trim, trimEnd.
  apply Forall_reverse, trimStart_Forall, Forall_reverse.
  by apply trimStart_Forall.
Qed.

Lemma trimStart_fixed s :
  (∀ c, head s = Some c → is_space c = false) → trimStart s = s.
Proof.
  destruct s as [|c s]; [done|]. intros H. simpl. by rewrite (H c).
Qed.

Lemma trim_fixed s :
  (∀ c, head s = Some c → is_space c = false) →
  (∀ c, last s = Some c → is_space c = false) →
  trim s = s.
Proof.
  intros Hhead Hlast. unfold trim, trimEnd.
  rewrite (trimStart_fixed s Hhead), trimStart_fixed, reverse_involutive; [done|].
  intros c. rewrite head_reverse. apply Hlast.
Qed.

(** Trimming twice is trimming once. *)
Lemma trim_trim s : trim (trim s) = trim s.
Proof.
  apply trim_fixed.
  - intros c Hc. destruct (trim s) as [|d r] eqn:E; [done|].
    injection Hc as ->. by eapply trim_head.
  - apply trim_last.
Qed.

Lemma join_cons sep u v rest :
  join sep (u :: v :: rest) = u ++ sep ++ join sep (v :: rest).
Proof. done. Qed.

Lemma parseRelays_endpoint_elem input u : u ∈ parseRelays input → endpoint u.
Proof.
  intros (token & Htoken & -> & Hprefix)%parseRelays_elem.
  split; [done|]. split; [|apply trim_trim].
  by apply trim_Forall, (split_no_separator relay_separator input).
Qed.

Lemma parseRelays_join c us :
  relay_separator c = true → Forall endpoint us →
  parseRelays (join [c] us) = us.
Proof.
  intros Hc. induction 1 as [|u us (Hprefix & Hsep & Htrim) Hus IH]; [done|].
  destruct us as [|v rest].
  - simpl. rewrite parseRelays_one by done. rewrite Htrim.
    by apply startsWith_prefix in Hprefix as ->.
  - rewrite join_cons. change ([c] ++ ?x) with (c :: x).
    rewrite parseRelays_app by done.
    rewrite IH, parseRelays_one by done. rewrite Htrim.
    by apply startsWith_prefix in Hprefix as ->.
Qed.

End JoinFacts.

(** X1. Joining endpoints with a newline or a comma and parsing the text
    gives the endpoints back: for every list of endpoints (each starting
    with [wss://], without newline or comma, without white space at
    either end), and in particular for what [parseRelays] returns on any
    input, so that parsing, joining and parsing again changes nothing.
    The default relay text is the join of its five endpoints and parses
    to them. *)
Theorem X1_parse_join_round_trip :
  (∀ c us, relay_separator c = true → Forall endpoint us →
     parseRelays (join [c] us) = us)
  ∧ (∀ c input, relay_separator c = true →
       parseRelays (join [c] (parseRelays input)) = parseRelays input)
  ∧ DEFAULT_RELAYS
    = join [LF] [js "wss://relay.damus.io"; js "wss://relay.primal.net";
                 js "wss://nos.lol"; js "wss://relay.nostr.band";
                 js "wss://nostr.wine"]
  ∧ parseRelays DEFAULT_RELAYS
    = [js "wss://relay.damus.io"; js "wss://relay.primal.net";
       js "wss://nos.lol"; js "wss://relay.nostr.band"; js "wss://nostr.wine"].
Proof.
  split; [apply parseRelays_join|]. split; [|split; reflexivity].
  intros c input Hc. apply parseRelays_join; [done|].
  apply Forall_forall. apply parseRelays_endpoint_elem.
Qed.

Lemma X1_witness :
  relay_separator COMMA = true
  ∧ parseRelays (join [COMMA] (parseRelays (js " wss://a ,x,, wss://b")))
    = parseRelays (js " wss://a ,x,, wss://b").
Proof.
  assert (relay_separator COMMA = true) as Hc by reflexivity.
  split; [exact Hc|].
  exact (proj1 (proj2 X1_parse_join_round_trip) COMMA
           (js " wss://a ,x,, wss://b") Hc).
Defined.

Section ParserBounds.

Implicit Types (s t u : jsstring) (c : N).

Lemma split_length sep s :
  length (split sep s) = S (length (List.filter sep s)).
Proof.
  induction s as [|d s IH]; simpl; [done|].
  destruct (sep d); simpl; [by rewrite IH|].
  pose proof (split_nonempty sep s). by destruct (split sep s).
Qed.

Lemma filter_length_le {A : Type} (f : A → bool) (l : list A) :
  length (List.filter f l) ≤ length l.
Proof. induction l as [|x l IH]; simpl; [done|]. destruct (f x); simpl; lia. Qed.

End ParserBounds.

(** X2. Whatever the input, every endpoint [parseRelays] returns holds
    neither newline nor comma, is unchanged by trimming and is at least as
    long as [wss://] (six code units); and the parser returns at most one
    endpoint more than the input has newlines and commas. *)
Theorem X2_parseRelays_bounds (input : jsstring) :
  Forall (λ u, endpoint u ∧ 6 ≤ length u) (parseRelays input)
  ∧ length (parseRelays input)
    ≤ S (length (List.filter relay_separator input)).
Proof.
  split.
  - apply Forall_forall. intros u Hu.
    pose proof (parseRelays_endpoint_elem input u Hu) as Hend.
    split; [done|]. destruct Hend as ([k ->] & _). rewrite length_app.
    change (length wss_prefix) with 6. lia.
  - unfold parseRelays. etrans; [apply filter_length_le|].
    by rewrite length_map, split_length.
Qed.

(** ** The repeating timer *)

Section IntervalFacts.

Implicit Types (s : State) (now t : Z).

(** What a tick shows when the start time is [t]. *)
Lemma interval_timeRemaining now t s :
  startTimeRef s = Some t → t ≠ 0%Z →
  timeRemaining (exec (intervalCallback now) s)
  = Some ((Z.max 0 (TIMEOUT_MS - (now - t)) + 999) / 1000)%Z.
Proof.
  intros Ht Hne. unfold intervalCallback.
  destruct s as [? ? ? ? ? ? ? ? ? [?|] ? ? [? ? ? ? ?]]; simpl in Ht; subst;
    cmd_unfold; rewrite (proj2 (Z.eqb_neq t 0) Hne);
    destruct (_ <=? 0)%Z; reflexivity.
Qed.

Lemma interval_before_end now t s :
  startTimeRef s = Some t → t ≠ 0%Z → (now - t < TIMEOUT_MS)%Z →
  exec (intervalCallback now) s
  = upd_timeRemaining
      (λ _, Some ((Z.max 0 (TIMEOUT_MS - (now - t)) + 999) / 1000)%Z) s.
Proof.
  intros Ht Hne Hlt. unfold intervalCallback.
  assert ((Z.max 0 (TIMEOUT_MS - (now - t)) <=? 0)%Z = false) as Hpos
    by (apply Z.leb_gt; lia).
  destruct s as [? ? ? ? ? ? ? ? ? ? ? ? [? ? ? ? ?]]; simpl in Ht; subst.
  cmd_unfold. rewrite (proj2 (Z.eqb_neq t 0) Hne), Hpos. reflexivity.
Qed.

Lemma interval_at_end now t s :
  startTimeRef s = Some t → t ≠ 0%Z → (TIMEOUT_MS ≤ now - t)%Z →
  timeRemaining (exec (intervalCallback now) s) = Some 0%Z
  ∧ intervalIdRef (exec (intervalCallback now) s) = None
  ∧ timers (host (exec (intervalCallback now) s))
    = (if intervalIdRef s is Some i then delete i (timers (host s))
       else timers (host s))
  ∧ calls (host (exec (intervalCallback now) s))
    = calls (host s)
      ++ (if intervalIdRef s is Some i then [CallClearInterval i] else []).
Proof.
  intros Ht Hne Hge. unfold intervalCallback.
  assert (Z.max 0 (TIMEOUT_MS - (now - t)) = 0%Z) as Hzero by lia.
  destruct s as [? ? ? ? ? ? ? ? ? [?|] ? ? [? ? ? ? ?]]; simpl in Ht; subst;
    cmd_unfold; rewrite (proj2 (Z.eqb_neq t 0) Hne), Hzero;
    cbn [Z.leb Z.compare Z.add Z.div Z.div_eucl Pos.compare Pos.compare_cont];
    rewrite ?app_nil_r; repeat split; reflexivity.
Qed.

Lemma interval_no_start now s :
  startTimeRef s = None → exec (intervalCallback now) s = s.
Proof.
  intros Ht. unfold intervalCallback.
  destruct s as [? ? ? ? ? ? ? ? ? ? ? ? ?]; simpl in Ht; subst. done.
Qed.

(** The test of line 142 takes a start time of 0 for an absent one. *)
Lemma interval_zero_start now s :
  startTimeRef s = Some 0%Z → exec (intervalCallback now) s = s.
Proof.
  intros Ht. unfold intervalCallback.
  destruct s as [? ? ? ? ? ? ? ? ? ? ? ? ?]; simpl in Ht; subst. done.
Qed.

End IntervalFacts.

(** X3. A tick of the repeating timer at time [now], in a session whose
    recorded start time [t] is not 0 and not later than [now], shows a
    whole number of seconds between 0 and 45: the least [k] with
    [45000 - (now - t) ≤ 1000 k], and 0 exactly when 45000 ms have
    passed; a later tick never shows more than an earlier one. When the
    recorded start time is 0 ([Date.now()] gave 0 at the start), the test
    of line 142 fails as for an absent start time: the tick shows no
    remaining time and changes nothing, whatever the time. *)
Theorem X3_time_remaining_bounds (now : Z) (s : State) :
  (∀ t, startTimeRef s = Some t → t ≠ 0%Z → (t ≤ now)%Z →
     ∃ k, timeRemaining (exec (intervalCallback now) s) = Some k
          ∧ (0 ≤ k ≤ 45)%Z
          ∧ (k = 0 ↔ TIMEOUT_MS ≤ now - t)%Z
          ∧ (now - t < TIMEOUT_MS →
               1000 * (k - 1) < TIMEOUT_MS - (now - t) ≤ 1000 * k)%Z
          ∧ ∀ later k', (now ≤ later)%Z →
              timeRemaining (exec (intervalCallback later) s) = Some k' →
              (k' ≤ k)%Z)
  ∧ (startTimeRef s = Some 0%Z →
       exec (intervalCallback now) s = s
       ∧ timeRemaining (exec (intervalCallback now) s) = timeRemaining s
       ∧ intervalIdRef (exec (intervalCallback now) s) = intervalIdRef s).
Proof.
  split; [|by intros ->%(interval_zero_start now)].
  intros t Ht Hne Hle. eexists. split; [by apply interval_timeRemaining|].
  unfold TIMEOUT_MS.
  set (rem := Z.max 0 (45000 - (now - t))).
  assert (0 ≤ rem ≤ 45000)%Z as Hrem by (unfold rem; lia).
  pose proof (Z.div_mod (rem + 999) 1000 ltac:(lia)) as Hdm.
  pose proof (Z.mod_pos_bound (rem + 999) 1000 ltac:(lia)) as Hmod.
  split; [lia|]. split; [unfold rem in *; lia|]. split; [unfold rem in *; lia|].
  intros later k' Hlater. rewrite (interval_timeRemaining later t s Ht Hne).
  intros [= <-]. unfold TIMEOUT_MS.
  apply Z.div_le_mono; [lia|]. unfold rem. lia.
Qed.

(** A tick 1500 ms into a session started at time 1000, and a tick
    50000 ms into a session started at time 0. *)
Lemma X3_witness :
  startTimeRef started = Some 1000%Z
  ∧ (∃ k, timeRemaining (exec (intervalCallback 2500) started) = Some k
          ∧ (0 ≤ k ≤ 45)%Z)
  ∧ startTimeRef (step json_parse (ClickStart 0 Subscribed) initialState)
    = Some 0%Z
  ∧ timeRemaining
      (exec (intervalCallback 50000)
         (step json_parse (ClickStart 0 Subscribed) initialState))
    = timeRemaining (step json_parse (ClickStart 0 Subscribed) initialState).
Proof.
  assert (startTimeRef started = Some 1000%Z) as Ht
    by (vm_compute; reflexivity).
  assert (startTimeRef (step json_parse (ClickStart 0 Subscribed) initialState)
          = Some 0%Z) as Hzero
    by (vm_compute; reflexivity).
  split; [exact Ht|]. split.
  - destruct (proj1 (X3_time_remaining_bounds 2500 started)
                1000%Z Ht ltac:(lia) ltac:(lia))
      as (k & Hk & Hbounds & _).
    exists k. exact (conj Hk Hbounds).
  - split; [exact Hzero|].
    exact (proj1 (proj2 (proj2 (X3_time_remaining_bounds 50000
             (step json_parse (ClickStart 0 Subscribed) initialState))
             Hzero))).
Defined.

(** X4. In a session whose recorded start time is not 0: before the
    45000 ms have passed a tick changes the remaining time and nothing
    else; from then on a tick shows 0 and disarms the repeating timer
    itself: it clears the timer whose handle the ref holds, with one
    [clearInterval] call, and empties the ref. With no start time (as
    [stopHarvesting] leaves it), or with a recorded start time of 0
    ([Date.now()] gave 0 at the start; line 142 tests the number for
    truth), a tick changes nothing: it shows no time and never disarms
    the timer, however late it comes. *)
Theorem X4_tick_frame_and_self_disarm (now : Z) (s : State) :
  (∀ t, startTimeRef s = Some t → t ≠ 0%Z → (now - t < TIMEOUT_MS)%Z →
     exec (intervalCallback now) s
     = upd_timeRemaining
         (λ _, Some ((Z.max 0 (TIMEOUT_MS - (now - t)) + 999) / 1000)%Z) s)
  ∧ (∀ t, startTimeRef s = Some t → t ≠ 0%Z → (TIMEOUT_MS ≤ now - t)%Z →
       timeRemaining (exec (intervalCallback now) s) = Some 0%Z
       ∧ intervalIdRef (exec (intervalCallback now) s) = None
       ∧ timers (host (exec (intervalCallback now) s))
         = (if intervalIdRef s is Some i then delete i (timers (host s))
            else timers (host s))
       ∧ calls (host (exec (intervalCallback now) s))
         = calls (host s)
           ++ (if intervalIdRef s is Some i then [CallClearInterval i] else []))
  ∧ (startTimeRef s = None ∨ startTimeRef s = Some 0%Z →
       exec (intervalCallback now) s = s)
  ∧ (∀ r, exec (intervalCallback now) (exec (stopHarvesting r) s)
          = exec (stopHarvesting r) s).
Proof.
  split; [intros t; apply interval_before_end|].
  split; [intros t; apply interval_at_end|].
  split; [intros [?|?]; [by apply interval_no_start|by apply interval_zero_start]|].
  intros r. apply interval_no_start, stop_cleared.
Qed.

(** A tick 45000 ms into a session started at time 1000, and a tick
    50000 ms into a session started at time 0. *)
Lemma X4_witness :
  startTimeRef started = Some 1000%Z
  ∧ intervalIdRef (exec (intervalCallback 46000) started) = None
  ∧ timers (host (exec (intervalCallback 46000) started))
    = (if intervalIdRef started is Some i
       then delete i (timers (host started)) else timers (host started))
  ∧ exec (intervalCallback 50000)
      (step json_parse (ClickStart 0 Subscribed) initialState)
    = step json_parse (ClickStart 0 Subscribed) initialState.
Proof.
  assert (startTimeRef started = Some 1000%Z) as Ht
    by (vm_compute; reflexivity).
  assert (startTimeRef (step json_parse (ClickStart 0 Subscribed) initialState)
          = Some 0%Z) as Hzero
    by (vm_compute; reflexivity).
  split; [exact Ht|].
  destruct (proj1 (proj2 (X4_tick_frame_and_self_disarm 46000 started))
              1000%Z Ht ltac:(lia) ltac:(unfold TIMEOUT_MS; lia))
    as (_ & Hid & Htimers & _).
  split; [exact Hid|]. split; [exact Htimers|].
  exact (proj1 (proj2 (proj2 (X4_tick_frame_and_self_disarm 50000
           (step json_parse (ClickStart 0 Subscribed) initialState))))
           (or_intror Hzero)).
Defined.

(** ** Events *)

Lemma union_shift (a : jsstring) (X Y : gset jsstring) :
  X ∪ ({[a]} ∪ Y) = ({[a]} ∪ X) ∪ Y.
Proof. apply set_eq. intros x. rewrite !elem_of_union. tauto. Qed.

Section MoreEventFacts.

Variable JSON_parse : jsstring → option JsValue.
Implicit Types (r : Render) (s : State) (e : NostrEvent) (a : jsstring).

Lemma carried_Some e a :
  carried JSON_parse e = Some a ↔
  ∃ metadata, JSON_parse (content e) = Some metadata
              ∧ get_lud16 metadata = Some (JString a)
              ∧ isValidLud16 (JString a) = true.
Proof.
  unfold carried. split.
  - destruct (JSON_parse (content e)) as [metadata|]; [|done].
    destruct (get_lud16 metadata) as [[| | | |b| |]|] eqn:Hget; try done.
    destruct (isValidLud16 (JString b)) eqn:Hv; [|done]. intros [= <-].
    by exists metadata.
  - intros (metadata & -> & -> & ->). done.
Qed.

(** What [processEvent] does to the sequence and the set. *)
Lemma processEvent_addresses r e s :
  let s' := exec (processEvent JSON_parse r e) s in
  match carried JSON_parse e with
  | Some a =>
      if bool_decide (a ∈ addressSetRef s)
      then s' = s
      else foundAddresses s' = foundAddresses s ++ [a]
           ∧ addressSetRef s' = {[a]} ∪ addressSetRef s
  | None => s' = s
  end.
Proof.
  simpl. destruct (carried JSON_parse e) as [a|] eqn:Ha;
    [|by apply processEvent_none].
  case_bool_decide as Hin; [by apply (processEvent_seen _ r e s a)|].
  rewrite (processEvent_new _ r e s a) by done.
  destruct (record_address_fields a s) as [Hfa Hset].
  destruct (_ <=? _)%nat; [|done].
  by destruct (stop_frame r (record_address a s)) as (_ & -> & _ & -> & _).
Qed.

Lemma processAll_discover r es s :
  foundAddresses (processAll JSON_parse r es s)
  = foundAddresses s
    ++ discover (addressSetRef s) (omap (carried JSON_parse) es)
  ∧ addressSetRef (processAll JSON_parse r es s)
    = list_to_set (discover (addressSetRef s) (omap (carried JSON_parse) es))
      ∪ addressSetRef s.
Proof.
  revert s. induction es as [|e es IH]; intros s; simpl.
  - rewrite app_nil_r. split; [done|]. symmetry. apply (left_id_L ∅ (∪)).
  - pose proof (processEvent_addresses r e s) as He. simpl in He.
    destruct (IH (exec (processEvent JSON_parse r e) s)) as [IHfa IHset].
    unfold processAll in *. rewrite IHfa, IHset. clear IHfa IHset.
    destruct (carried JSON_parse e) as [a|]; simpl; [|by rewrite He].
    case_bool_decide as Hin; [by rewrite He|].
    destruct He as [-> ->]. rewrite <- app_assoc. split; [done|].
    apply union_shift.
Qed.

End MoreEventFacts.

(** X5. [processEvent] changes the state exactly when the payload parses,
    its [lud16] member is a string that passes [isValidLud16], and that
    string is not yet in the set; the address is then appended to the
    sequence and added to the set. In every other case (a payload that
    does not parse, [null], a missing or non-string or malformed [lud16],
    an address seen before) the whole state, host calls included, is as
    before. *)
Theorem X5_processEvent_changes_iff_new
    (JSON_parse : jsstring → option JsValue)
    (r : Render) (e : NostrEvent) (s : State) :
  (exec (processEvent JSON_parse r e) s ≠ s ↔
   ∃ metadata a, JSON_parse (content e) = Some metadata
                 ∧ get_lud16 metadata = Some (JString a)
                 ∧ isValidLud16 (JString a) = true
                 ∧ a ∉ addressSetRef s)
  ∧ (∀ metadata a, JSON_parse (content e) = Some metadata →
       get_lud16 metadata = Some (JString a) →
       isValidLud16 (JString a) = true →
       a ∉ addressSetRef s →
       foundAddresses (exec (processEvent JSON_parse r e) s)
       = foundAddresses s ++ [a]
       ∧ addressSetRef (exec (processEvent JSON_parse r e) s)
         = {[a]} ∪ addressSetRef s).
Proof.
  pose proof (processEvent_addresses JSON_parse r e s) as He. simpl in He.
  split.
  - split.
    + intros Hchanged. destruct (carried JSON_parse e) as [a|] eqn:Ha; [|done].
      case_bool_decide as Hin; [done|].
      apply carried_Some in Ha as (metadata & ? & ? & ?). by exists metadata, a.
    + intros (metadata & a & Hparse & Hget & Hvalid & Hnew) Heq.
      assert (carried JSON_parse e = Some a) as Ha
        by (apply carried_Some; eauto).
      rewrite Ha, bool_decide_eq_false_2 in He by done.
      destruct He as [Hfa _]. rewrite Heq in Hfa.
      apply (f_equal length) in Hfa. rewrite length_app in Hfa. simpl in Hfa. lia.
  - intros metadata a Hparse Hget Hvalid Hnew.
    assert (carried JSON_parse e = Some a) as Ha
      by (apply carried_Some; eauto).
    by rewrite Ha, bool_decide_eq_false_2 in He.
Qed.

Lemma X5_witness :
  (alice ∉ addressSetRef started)
  ∧ foundAddresses
      (exec (processEvent json_parse (render initialState)
               (lud16_event "alice@example.com")) started)
    = foundAddresses started ++ [alice].
Proof.
  assert (alice ∉ addressSetRef started) as Hnew.
  { assert (addressSetRef started = ∅) as -> by (vm_compute; reflexivity).
    apply not_elem_of_empty. }
  assert (json_parse (content (lud16_event "alice@example.com"))
          = Some (JObject [(js "lud16", JString alice)])) as Hparse
    by (vm_compute; reflexivity).
  assert (get_lud16 (JObject [(js "lud16", JString alice)])
          = Some (JString alice)) as Hget by (vm_compute; reflexivity).
  assert (isValidLud16 (JString alice) = true) as Hvalid
    by (vm_compute; reflexivity).
  split; [exact Hnew|].
  exact (proj1 (proj2 (X5_processEvent_changes_iff_new json_parse
           (render initialState) (lud16_event "alice@example.com") started)
           (JObject [(js "lud16", JString alice)]) alice
           Hparse Hget Hvalid Hnew)).
Defined.

Section DiscoverFacts.

Implicit Types (seen : gset jsstring) (l : list jsstring).

Lemma discover_elem seen l a :
  a ∈ discover seen l ↔ a ∈ l ∧ a ∉ seen.
Proof.
  revert seen. induction l as [|b l IH]; intros seen; simpl.
  - rewrite elem_of_nil. tauto.
  - case_bool_decide as Hb.
    + rewrite IH, elem_of_cons. split; [tauto|].
      intros [[->|?] ?]; [done|tauto].
    + rewrite !elem_of_cons, IH, not_elem_of_union, not_elem_of_singleton.
      split; [intros [->|(? & ? & ?)]; tauto|].
      destruct (decide (a = b)); tauto.
Qed.

Lemma discover_NoDup seen l : NoDup (discover seen l).
Proof.
  revert seen. induction l as [|b l IH]; intros seen; simpl; [constructor|].
  case_bool_decide; [apply IH|]. constructor; [|apply IH].
  rewrite discover_elem, not_elem_of_union, not_elem_of_singleton. tauto.
Qed.

Lemma discover_sublist seen l : discover seen l `sublist_of` l.
Proof.
  revert seen. induction l as [|b l IH]; intros seen; simpl; [done|].
  case_bool_decide; [by apply sublist_cons|by apply sublist_skip].
Qed.

End DiscoverFacts.

(** X6. Handing a sequence of events to [processEvent] appends to the
    discovered sequence exactly the valid addresses the events carry that
    were not in the set, each once and in the order of delivery, and adds
    the same addresses to the set. The handler itself puts no cap on how
    many. *)
Theorem X6_discovery_order (JSON_parse : jsstring → option JsValue)
    (r : Render) (events : list NostrEvent) (s : State) :
  ∃ new,
    foundAddresses (processAll JSON_parse r events s) = foundAddresses s ++ new
    ∧ addressSetRef (processAll JSON_parse r events s)
      = list_to_set new ∪ addressSetRef s
    ∧ new = discover (addressSetRef s) (omap (carried JSON_parse) events)
    ∧ NoDup new
    ∧ new `sublist_of` omap (carried JSON_parse) events
    ∧ ∀ a, a ∈ new ↔
           (∃ e, e ∈ events ∧ carried JSON_parse e = Some a)
           ∧ a ∉ addressSetRef s.
Proof.
  eexists. split; [apply processAll_discover|]. split; [apply processAll_discover|].
  split; [done|]. split; [apply discover_NoDup|]. split; [apply discover_sublist|].
  intros a. rewrite discover_elem, list_elem_of_omap. done.
Qed.

(** ** More of the session invariant *)

Section Invariant2Facts.

Implicit Types (r : Render) (s : State) (a : jsstring).

Lemma closing_None_falsy s :
  truthy (subIdRef s) = false → closing s = None.
Proof. unfold closing. intros ->. by destruct (poolRef s). Qed.

(** A state that differs from [s] only in what the invariant does not
    read, in timers that no ref holds being disarmed, in the interval ref
    being emptied, and in timer calls being logged. *)
Lemma inv2_frame s s' extra :
  session_inv2 s →
  isRunning s' = isRunning s → relayInput s' = relayInput s →
  timeoutIdRef s' = timeoutIdRef s → subIdRef s' = subIdRef s →
  poolRef s' = poolRef s → pools (host s') = pools (host s) →
  nextTimer (host s') = nextTimer (host s) →
  (intervalIdRef s' = intervalIdRef s ∨ intervalIdRef s' = None) →
  (∀ id cb, timers (host s') !! id = Some cb → timers (host s) !! id = Some cb) →
  (∀ id cb, timers (host s) !! id = Some cb →
     timeoutIdRef s' = Some id ∨ intervalIdRef s' = Some id →
     timers (host s') !! id = Some cb) →
  calls (host s') = calls (host s) ++ extra → Forall timer_call extra →
  session_inv2 s'.
Proof.
  intros (I1 & I2 & I3 & I4 & I5 & I6 & I7)
    Hrun Hri Htid Hsid Hpr Hpl Hnt Hiid Hsub Hkeep Hcalls Hextra.
  assert (closing s' = closing s) as Hcl by (unfold closing; by rewrite Hpr, Hsid).
  assert (∀ c, c ∈ calls (host s) → c ∈ calls (host s')) as Hgrow.
  { intros c Hc. rewrite Hcalls, elem_of_app. by left. }
  unfold session_inv2. rewrite Hrun, Hri, Htid, Hsid, Hcl, Hpl, Hnt.
  split; [|split; [|split; [|split; [|split; [|split]]]]].
  - intros Hstopped. destruct (I1 Hstopped) as (? & Hi & ?).
    repeat split; try done. destruct Hiid as [->| ->]; done.
  - done.
  - intros t Ht. destruct (I3 t Ht) as [r Hr]. exists r.
    apply Hkeep; [done|]. left. by rewrite Htid.
  - intros i Hi. apply Hkeep; [|by right].
    apply I4. destruct Hiid as [<-|Hnone]; [done|congruence].
  - intros p Hp. destruct (I5 p Hp) as (? & ? & ?). auto.
  - intros id [cb Hcb]. apply I6. exists cb. by apply Hsub.
  - intros p relays. rewrite Hcalls, !elem_of_app.
    intros [Hold|Hnew]; [left; by apply I7|].
    rewrite Forall_forall in Hextra. by destruct (Hextra _ Hnew).
Qed.

Lemma inv2_record a s : session_inv2 s → session_inv2 (record_address a s).
Proof.
  intros Hs. apply (inv2_frame s _ []); try done; try (by destruct s).
  - by left.
  - by rewrite app_nil_r; destruct s.
Qed.

(** [stopHarvesting] establishes the invariant from little. *)
Lemma stop_inv2 r s :
  (closing s = None → truthy (subIdRef s) = false) →
  (∀ p, closing s = Some p →
     CallSubscribeMany p (parseRelays (r_relayInput r)) ∈ calls (host s)) →
  (∀ id, is_Some (timers (host s) !! id) → (id < nextTimer (host s))%positive) →
  (∀ p relays, CallClose p relays ∈ calls (host s) →
     CallSubscribeMany p relays ∈ calls (host s)) →
  session_inv2 (exec (stopHarvesting r) s).
Proof.
  intros Hfalsy Hopened I6 I7.
  destruct (stop_cleared r s) as (Hrun & _ & Htid & Hiid & _).
  destruct (stop_refs r s) as (Hpool & Hsub).
  destruct (stop_frame r s) as (_ & _ & _ & _ & Hnt & _).
  assert (truthy (subIdRef (exec (stopHarvesting r) s)) = false) as Hsid.
  { rewrite Hsub. destruct (closing s); [done|]. by apply Hfalsy. }
  unfold session_inv2. rewrite Hrun, Htid, Hiid, Hnt, (closing_None_falsy _ Hsid).
  split; [done|]. split; [done|]. split; [done|]. split; [done|].
  split; [done|]. split.
  - intros id [cb Hcb]. apply I6. exists cb. rewrite stop_timers in Hcb.
    destruct (intervalIdRef s), (timeoutIdRef s);
      repeat (apply lookup_delete_Some in Hcb as [_ Hcb]); done.
  - intros p relays. rewrite stop_calls, !elem_of_app.
    intros [Hold|[Hc|[Hc|Hc]]].
    + left. by apply I7.
    + destruct (timeoutIdRef s); [|by apply elem_of_nil in Hc].
      by apply list_elem_of_singleton in Hc.
    + destruct (intervalIdRef s); [|by apply elem_of_nil in Hc].
      by apply list_elem_of_singleton in Hc.
    + destruct (closing s) as [q|] eqn:Hq; [|by apply elem_of_nil in Hc].
      apply list_elem_of_singleton in Hc as [= -> ->]. left. by apply Hopened.
Qed.

Lemma inv2_stop r s :
  session_inv2 s →
  (∀ p, closing s = Some p → r_relayInput r = relayInput s) →
  session_inv2 (exec (stopHarvesting r) s).
Proof.
  intros (I1 & I2 & I3 & I4 & I5 & I6 & I7) Hr. apply stop_inv2; try done.
  - intros Hnone. destruct (isRunning s) eqn:Hrun; [|by apply I1].
    destruct (I2 eq_refl) as (_ & p & Hp). congruence.
  - intros p Hp. rewrite (Hr p Hp). by apply I5.
Qed.

Lemma inv2_disarm_connected id s :
  session_inv2 s → timers (host s) !! id = Some ConnectedCb →
  session_inv2 (upd_host (disarm id) s).
Proof.
  intros Hs Hid. pose proof Hs as (_ & _ & I3 & I4 & _).
  apply (inv2_frame s _ []); try done; try (by destruct s).
  - by left.
  - destruct s as [? ? ? ? ? ? ? ? ? ? ? ? [? ? ? ? ?]]. simpl.
    intros id' cb. rewrite lookup_delete_Some. tauto.
  - destruct s as [? ? ? ? ? ? ? ? tid iid ? ? [tm ? ? ? ?]]. simpl in *.
    intros id' cb Hcb Href. rewrite lookup_delete_Some. split; [|done].
    intros <-. destruct Href as [Href|Href].
    + destruct (I3 _ Href) as [r Hr]. congruence.
    + specialize (I4 _ Href). congruence.
  - by rewrite app_nil_r; destruct s.
Qed.

Lemma interval_frame2 now s :
  let s' := exec (intervalCallback now) s in
  isRunning s' = isRunning s ∧ relayInput s' = relayInput s
  ∧ timeoutIdRef s' = timeoutIdRef s ∧ subIdRef s' = subIdRef s
  ∧ poolRef s' = poolRef s ∧ pools (host s') = pools (host s)
  ∧ nextTimer (host s') = nextTimer (host s)
  ∧ ((intervalIdRef s' = intervalIdRef s
      ∧ timers (host s') = timers (host s)
      ∧ calls (host s') = calls (host s))
     ∨ ∃ i, intervalIdRef s = Some i ∧ intervalIdRef s' = None
            ∧ timers (host s') = delete i (timers (host s))
            ∧ calls (host s') = calls (host s) ++ [CallClearInterval i]).
Proof.
  unfold intervalCallback.
  destruct s as [? ? ? ? ? ? ? ? ? [?|] ? [t|] [? ? ? ? ?]]; cmd_unfold;
    try destruct (t =? 0)%Z; try destruct (_ <=? 0)%Z;
    repeat split; eauto 10.
Qed.

Lemma inv2_interval now s :
  session_inv2 s → session_inv2 (exec (intervalCallback now) s).
Proof.
  intros Hs. pose proof Hs as (_ & _ & I3 & I4 & _).
  destruct (interval_frame2 now s)
    as (? & ? & Htid & ? & ? & ? & ? & [(Hi & Htm & Hcalls)|(i & Hi & Hi' & Htm & Hcalls)]).
  - apply (inv2_frame s _ []); try done.
    + by left.
    + by rewrite Htm.
    + intros id cb. by rewrite Htm.
    + by rewrite app_nil_r.
  - apply (inv2_frame s _ [CallClearInterval i]); try done.
    + by right.
    + intros id cb. rewrite Htm, lookup_delete_Some. tauto.
    + intros id cb Hcb Href. rewrite Htm, lookup_delete_Some. split; [|done].
      intros <-. destruct Href as [Href|Href]; [|congruence].
      rewrite Htid in Href. destruct (I3 _ Href) as [r Hr].
      specialize (I4 _ Hi). congruence.
    + by repeat constructor.
Qed.

Lemma inv2_connected s :
  session_inv2 s → session_inv2 (exec connectedCallback s).
Proof.
  intros Hs. apply (inv2_frame s _ []); try done; try (by destruct s).
  - by left.
  - by rewrite app_nil_r; destruct s.
Qed.

Lemma inv2_edit text s :
  session_inv2 s → isRunning s = false →
  session_inv2 (upd_relayInput (λ _, text) s).
Proof.
  intros (I1 & I2 & I3 & I4 & I5 & I6 & I7) Hstopped.
  destruct (I1 Hstopped) as (Ht & Hi & Hsid).
  pose proof (closing_None_falsy s Hsid) as Hcl.
  destruct s as [? ? ? ? ? ? ? ? ? ? ? ? ?]. unfold session_inv2, closing in *.
  simpl in *. subst. rewrite Hcl. repeat split; try done.
Qed.

End Invariant2Facts.

Section Invariant2Step.

Implicit Types (r : Render) (s : State).

(** The start button is enabled only when the session is not running. *)
Lemma inv2_start now outcome s :
  session_inv2 s → isRunning s = false →
  session_inv2 (exec (startHarvesting (render s) now outcome) s).
Proof.
  intros Hs Hstopped. pose proof Hs as (I1 & I2 & I3 & I4 & I5 & I6 & I7).
  destruct (I1 Hstopped) as (Htid & Hiid & Hsid).
  pose proof (closing_None_falsy s Hsid) as Hcl.
  destruct (parseRelays (r_relayInput (render s))) as [|u us] eqn:Hrelays.
  - rewrite start_empty by done.
    apply (inv2_frame s _ []); try done; [by left|by rewrite app_nil_r].
  - assert (parseRelays (relayInput s) = u :: us) as Hrelays' by done.
    destruct outcome as [|err].
    + rewrite start_subscribed by (by rewrite Hrelays).
      unfold session_inv2, closing. cbn -[parseRelays].
      split; [done|]. split; [eauto|]. split; [|split; [|split; [|split]]].
      * intros t [= <-]. exists (render s).
        rewrite !lookup_insert_ne by lia. by rewrite lookup_insert_eq.
      * intros i [= <-].
        rewrite lookup_insert_ne by lia. by rewrite lookup_insert_eq.
      * intros p [= <-]. rewrite lookup_insert_eq, Hrelays'.
        split; [eauto|]. split; [done|].
        rewrite elem_of_app. right. rewrite !elem_of_cons. auto.
      * intros id [cb Hcb].
        apply lookup_insert_Some in Hcb as [[<- _]|[_ Hcb]]; [lia|].
        apply lookup_insert_Some in Hcb as [[<- _]|[_ Hcb]]; [lia|].
        apply lookup_insert_Some in Hcb as [[<- _]|[_ Hcb]]; [lia|].
        assert (id < nextTimer (host s))%positive by (apply I6; eauto). lia.
      * intros p relays. rewrite !elem_of_app. intros [Hold|Hnew].
        { left. by apply I7. }
        rewrite !elem_of_cons, elem_of_nil in Hnew.
        destruct Hnew as [?|[?|[?|[?|[?|[]]]]]]; done.
    + rewrite start_threw by (by rewrite Hrelays). apply stop_inv2.
      * intros _. exact Hsid.
      * unfold closing. cbn -[parseRelays]. rewrite Hsid. done.
      * cbn -[parseRelays]. intros id [cb Hcb].
        apply lookup_insert_Some in Hcb as [[<- _]|[_ Hcb]]; [lia|].
        apply lookup_insert_Some in Hcb as [[<- _]|[_ Hcb]]; [lia|].
        assert (id < nextTimer (host s))%positive by (apply I6; eauto). lia.
      * cbn -[parseRelays]. intros p relays. rewrite !elem_of_app.
        intros [Hold|Hnew]; [left; by apply I7|].
        rewrite !elem_of_cons, elem_of_nil in Hnew.
        destruct Hnew as [?|[?|[?|[?|[]]]]]; done.
Qed.

Lemma disarm_frame id s :
  let s' := upd_host (disarm id) s in
  closing s' = closing s ∧ subIdRef s' = subIdRef s
  ∧ calls (host s') = calls (host s)
  ∧ nextTimer (host s') = nextTimer (host s)
  ∧ timers (host s') = delete id (timers (host s)).
Proof. by destruct s as [? ? ? ? ? ? ? ? ? ? ? ? [? ? ? ? ?]]. Qed.

Variable JSON_parse : jsstring → option JsValue.

Lemma inv2_processEvent r e s :
  session_inv2 s →
  (∀ p, closing s = Some p → r_relayInput r = relayInput s) →
  session_inv2 (exec (processEvent JSON_parse r e) s).
Proof.
  intros Hs Hr.
  destruct (carried JSON_parse e) as [a|] eqn:Ha;
    [|by rewrite processEvent_none].
  destruct (decide (a ∈ addressSetRef s)) as [Hin|Hnew];
    [by rewrite (processEvent_seen _ r e s a)|].
  rewrite (processEvent_new _ r e s a) by done.
  destruct (_ <=? _)%nat; [|by apply inv2_record].
  apply inv2_stop; [by apply inv2_record|].
  destruct (record_address_frame a s) as (-> & _ & -> & _). done.
Qed.

Lemma inv2_step a s :
  session_inv s → session_inv2 s → session_inv2 (step JSON_parse a s).
Proof.
  intros Hinv Hs. pose proof Hinv as (_ & _ & _ & Hpools & Htimeout & _).
  destruct a as [p e|id now|now outcome| |text].
  - rewrite step_deliver.
    destruct (pools (host s) !! p) as [pool|] eqn:Hp; [|done].
    destruct (subscribed pool) as [|u us] eqn:Hsub; [done|].
    destruct (onevent pool) as [r|] eqn:Hr; [|done].
    apply inv2_processEvent; [done|]. intros _ _.
    destruct (Hpools p pool Hp) as (_ & _ & Hsame & _); [by rewrite Hsub|].
    by apply Hsame.
  - rewrite step_fire.
    destruct (timers (host s) !! id) as [[r| |]|] eqn:Hid; [| | |done].
    + destruct (Htimeout id r Hid) as (_ & _ & Hr).
      pose proof Hs as (I1 & I2 & I3 & I4 & I5 & I6 & I7).
      destruct (disarm_frame id s) as (Hcl & Hsid & Hcalls & Hnt & Htm).
      apply stop_inv2; rewrite ?Hcl, ?Hsid, ?Hcalls, ?Hnt, ?Htm.
      * intros Hnone. destruct (isRunning s) eqn:Hrun.
        -- destruct (I2 eq_refl) as (_ & q & Hq). congruence.
        -- by destruct (I1 eq_refl) as (_ & _ & ?).
      * intros q Hq. rewrite Hr. by destruct (I5 q Hq) as (_ & _ & ?).
      * intros id' [cb Hcb]. apply lookup_delete_Some in Hcb as [_ Hcb].
        apply I6. eauto.
      * apply I7.
    + by apply inv2_interval.
    + by apply inv2_connected, inv2_disarm_connected.
  - rewrite step_click_start. destruct (isRunning s) eqn:Hrun; [done|].
    by apply inv2_start.
  - rewrite step_click_stop. destruct (isRunning s) eqn:Hrun; [|done].
    by apply inv2_stop.
  - rewrite step_edit. destruct (isRunning s) eqn:Hrun; [done|].
    by apply inv2_edit.
Qed.

Lemma inv2_initial : session_inv2 initialState.
Proof.
  unfold session_inv2, closing. simpl. repeat split; try done.
  - intros id [cb Hcb]. by rewrite lookup_empty in Hcb.
  - intros p relays Hc. by apply elem_of_nil in Hc.
Qed.

Lemma reachable_inv2 s : reachable JSON_parse s → session_inv2 s.
Proof.
  induction 1 as [|a s Hreach IH]; [apply inv2_initial|].
  apply inv2_step; [by eapply reachable_inv|done].
Qed.

End Invariant2Step.

(** ** What the invariants say of a mounted component *)

Lemma started_reachable : reachable json_parse started.
Proof. apply reachable_step, reachable_init. Qed.

Lemma full_reachable : reachable json_parse full.
Proof. apply reachable_run, started_reachable. Qed.

(** X7. Whenever a mounted component is not running (before the first
    start, after a stop by the user, the goal or the timeout, after a
    start that failed), it holds nothing: no pool has an open
    subscription, neither the timeout nor the repeating timer is armed,
    both timer refs are empty and there is no pool left to close. A
    click on stop always ends in such a state. *)
Theorem X7_not_running_holds_nothing (JSON_parse : jsstring → option JsValue) :
  (∀ s, reachable JSON_parse s → isRunning s = false →
     quiet s ∧ timeoutIdRef s = None ∧ intervalIdRef s = None
     ∧ closing s = None)
  ∧ (∀ s, reachable JSON_parse s →
       isRunning (step JSON_parse ClickStop s) = false
       ∧ quiet (step JSON_parse ClickStop s)).
Proof.
  assert (H : ∀ s, reachable JSON_parse s → isRunning s = false →
     quiet s ∧ timeoutIdRef s = None ∧ intervalIdRef s = None
     ∧ closing s = None).
  { intros s Hs Hstopped.
    split; [by apply inv_quiet; [eapply reachable_inv|]|].
    destruct (reachable_inv2 _ s Hs) as (I1 & _).
    destruct (I1 Hstopped) as (? & ? & ?).
    repeat split; try done. by apply closing_None_falsy. }
  split; [exact H|]. intros s Hs.
  assert (isRunning (step JSON_parse ClickStop s) = false) as Hstopped.
  { rewrite step_click_stop. destruct (isRunning s) eqn:Hrun; [|done].
    apply stop_cleared. }
  split; [done|]. by apply H; [apply reachable_step|].
Qed.

Lemma X7_witness :
  reachable json_parse full ∧ isRunning full = false ∧ quiet full.
Proof.
  assert (isRunning full = false) as Hstopped by (vm_compute; reflexivity).
  split; [exact full_reachable|]. split; [exact Hstopped|].
  exact (proj1 (proj1 (X7_not_running_holds_nothing json_parse)
                  full full_reachable Hstopped)).
Defined.

(** X8. While the session runs its one-shot timeout is armed under the
    handle the ref holds, so the session can always end by it. When it
    fires, the session is not running, the status message is
    ["Stopped"], the remaining time and the start time are absent, no
    subscription is open and no session timer is armed, and the
    addresses found so far are kept. *)
Theorem X8_timeout_ends_session (JSON_parse : jsstring → option JsValue) :
  (∀ s, reachable JSON_parse s → isRunning s = true →
     ∃ id r, timeoutIdRef s = Some id
             ∧ timers (host s) !! id = Some (TimeoutCb r))
  ∧ (∀ s id r now, reachable JSON_parse s →
       timers (host s) !! id = Some (TimeoutCb r) →
       isRunning (step JSON_parse (Fire id now) s) = false
       ∧ statusMessage (step JSON_parse (Fire id now) s) = js "Stopped"
       ∧ timeRemaining (step JSON_parse (Fire id now) s) = None
       ∧ startTimeRef (step JSON_parse (Fire id now) s) = None
       ∧ quiet (step JSON_parse (Fire id now) s)
       ∧ foundAddresses (step JSON_parse (Fire id now) s) = foundAddresses s
       ∧ addressSetRef (step JSON_parse (Fire id now) s) = addressSetRef s).
Proof.
  split.
  - intros s Hs Hrun. destruct (reachable_inv2 _ s Hs) as (_ & I2 & I3 & _).
    destruct (I2 Hrun) as ((t & Ht) & _). destruct (I3 t Ht) as (r & Hr).
    by exists t, r.
  - intros s id r now Hs Hid.
    assert (reachable JSON_parse (step JSON_parse (Fire id now) s)) as Hs'
      by by apply reachable_step.
    destruct (step_frame JSON_parse (Fire id now) s) as [Hfa Hset]; [done..|].
    rewrite Hfa, Hset. rewrite step_fire, Hid in *.
    destruct (stop_cleared r (upd_host (disarm id) s))
      as (Hrun & Hmsg & _ & _ & Hst & Htr).
    repeat split; try done.
    all: by apply inv_quiet; [eapply reachable_inv|].
Qed.

Lemma X8_witness :
  reachable json_parse started
  ∧ timers (host started) !! 1%positive = Some (TimeoutCb (render initialState))
  ∧ isRunning (step json_parse (Fire 1 46000) started) = false
  ∧ quiet (step json_parse (Fire 1 46000) started).
Proof.
  assert (timers (host started) !! 1%positive
          = Some (TimeoutCb (render initialState))) as Hid
    by (vm_compute; reflexivity).
  split; [exact started_reachable|]. split; [exact Hid|].
  destruct (proj2 (X8_timeout_ends_session json_parse) started 1%positive
              (render initialState) 46000%Z started_reachable Hid)
    as (Hrun & _ & _ & _ & Hquiet & _).
  exact (conj Hrun Hquiet).
Defined.

(** X9. While the session runs, exactly one pool has an open
    subscription: the pool the ref holds. It is subscribed on exactly
    the endpoints parsed from the current relay text, of which there is
    at least one, its handler is the closure of a render with the same
    relay text, and fewer than [MAX_ADDRESSES] addresses have been
    found. *)
Theorem X9_one_open_subscription_while_running
    (JSON_parse : jsstring → option JsValue) (s : State) :
  reachable JSON_parse s → isRunning s = true →
  ∃ p r,
    poolRef s = Some p
    ∧ pools (host s) !! p
      = Some {| subscribed := parseRelays (relayInput s); onevent := Some r |}
    ∧ r_relayInput r = relayInput s
    ∧ parseRelays (relayInput s) ≠ []
    ∧ size (addressSetRef s) < MAX_ADDRESSES
    ∧ ∀ q pool, pools (host s) !! q = Some pool → subscribed pool ≠ [] →
        q = p.
Proof.
  intros Hs Hrun.
  destruct (reachable_inv _ s Hs) as (_ & _ & Hlt & Hpools & _).
  destruct (reachable_inv2 _ s Hs) as (_ & I2 & _ & _ & I5 & _).
  destruct (I2 Hrun) as (_ & p & Hp).
  destruct (I5 p Hp) as ((r & Hpool) & Hne & _).
  destruct (Hpools p _ Hpool Hne) as (_ & _ & Hsame & _).
  exists p, r. split.
  { unfold closing in Hp. destruct (poolRef s) as [q|]; [|done].
    by destruct (truthy (subIdRef s)). }
  split; [done|]. split; [by apply Hsame|]. split; [done|].
  split; [by apply Hlt|]. intros q pool Hq Hsub.
  destruct (Hpools q pool Hq Hsub) as (_ & Hq' & _). congruence.
Qed.

Lemma X9_witness :
  reachable json_parse started ∧ isRunning started = true
  ∧ ∃ p r, poolRef started = Some p
           ∧ pools (host started) !! p
             = Some {| subscribed := parseRelays (relayInput started);
                       onevent := Some r |}.
Proof.
  assert (isRunning started = true) as Hrun by (vm_compute; reflexivity).
  split; [exact started_reachable|]. split; [exact Hrun|].
  destruct (X9_one_open_subscription_while_running json_parse started
              started_reachable Hrun) as (p & r & Hp & Hpool & _).
  exists p, r. exact (conj Hp Hpool).
Defined.

(** X10. The pool is only ever closed on the relays it was subscribed
    on: in the call log of a mounted component, every [close] call on a
    pool with a list of relays comes with a [subscribeMany] call on the
    same pool with the same list. *)
Theorem X10_close_matches_subscribe (JSON_parse : jsstring → option JsValue)
    (s : State) (p : positive) (relays : list jsstring) :
  reachable JSON_parse s →
  CallClose p relays ∈ calls (host s) →
  CallSubscribeMany p relays ∈ calls (host s).
Proof.
  intros Hs. destruct (reachable_inv2 _ s Hs) as (_ & _ & _ & _ & _ & _ & I7).
  apply I7.
Qed.

Lemma X10_witness :
  reachable json_parse full
  ∧ CallClose 1 (parseRelays DEFAULT_RELAYS) ∈ calls (host full)
  ∧ CallSubscribeMany 1 (parseRelays DEFAULT_RELAYS) ∈ calls (host full).
Proof.
  assert (calls (host full)
          = [CallNewPool 1; CallSetTimeout 1 45000; CallSetInterval 2 100;
             CallSubscribeMany 1 (parseRelays DEFAULT_RELAYS);
             CallSetTimeout 3 2000; CallClearTimeout 1; CallClearInterval 2;
             CallClose 1 (parseRelays DEFAULT_RELAYS)]) as Hcalls
    by (vm_compute; reflexivity).
  assert (CallClose 1 (parseRelays DEFAULT_RELAYS) ∈ calls (host full))
    as Hclose.
  { rewrite Hcalls. rewrite !elem_of_cons. tauto. }
  split; [exact full_reachable|]. split; [exact Hclose|].
  exact (X10_close_matches_subscribe json_parse full 1
           (parseRelays DEFAULT_RELAYS) full_reachable Hclose).
Defined.



(** ** The grace-period timer *)

Section GraceTimerFacts.

Implicit Types (r : Render) (s : State) (id : positive).

(** [stopHarvesting] disarms only the timers its refs hold. *)
Lemma stop_keeps_timer r s id cb :
  timers (host s) !! id = Some cb →
  timeoutIdRef s ≠ Some id → intervalIdRef s ≠ Some id →
  timers (host (exec (stopHarvesting r) s)) !! id = Some cb.
Proof.
  intros Hid Ht Hi. rewrite stop_timers.
  destruct (intervalIdRef s) as [i|], (timeoutIdRef s) as [t|];
    rewrite ?lookup_delete_ne by congruence; done.
Qed.

Lemma refs_not_connected s id :
  session_inv2 s → timers (host s) !! id = Some ConnectedCb →
  timeoutIdRef s ≠ Some id ∧ intervalIdRef s ≠ Some id.
Proof.
  intros (_ & _ & I3 & I4 & _) Hid. split.
  - intros Ht. destruct (I3 _ Ht) as [r Hr]. congruence.
  - intros Hi. specialize (I4 _ Hi). congruence.
Qed.

Lemma stop_keeps_connected r s id :
  session_inv2 s → timers (host s) !! id = Some ConnectedCb →
  timers (host (exec (stopHarvesting r) s)) !! id = Some ConnectedCb.
Proof.
  intros Hs Hid. destruct (refs_not_connected s id Hs Hid).
  by apply stop_keeps_timer.
Qed.

Lemma start_keeps_timer now outcome s id cb :
  session_inv2 s → isRunning s = false →
  timers (host s) !! id = Some cb →
  timers (host (exec (startHarvesting (render s) now outcome) s)) !! id
  = Some cb.
Proof.
  intros (I1 & _ & _ & _ & _ & I6 & _) Hstopped Hid.
  assert (id < nextTimer (host s))%positive as Hlt by (apply I6; eauto).
  destruct (parseRelays (r_relayInput (render s))) as [|u us] eqn:Hrelays.
  - by rewrite start_empty.
  - destruct outcome as [|err].
    + rewrite start_subscribed by (by rewrite Hrelays). cbn -[parseRelays].
      by rewrite !lookup_insert_ne by lia.
    + rewrite start_threw by (by rewrite Hrelays).
      apply stop_keeps_timer; cbn -[parseRelays].
      * by rewrite !lookup_insert_ne by lia.
      * intros [= Heq]. lia.
      * intros [= Heq]. lia.
Qed.

Lemma connected_statuses s :
  let s' := exec connectedCallback s in
  relayStatuses s'
  = map (λ rs, {| url := url rs; status := connected;
                  error_detail := error_detail rs |}) (relayStatuses s)
  ∧ map url (relayStatuses s') = map url (relayStatuses s)
  ∧ Forall (λ rs, status rs = connected) (relayStatuses s').
Proof.
  assert (relayStatuses (exec connectedCallback s)
          = map (λ rs, {| url := url rs; status := connected;
                          error_detail := error_detail rs |})
              (relayStatuses s)) as Heq by by destruct s.
  cbv zeta. rewrite Heq. split; [done|]. split.
  - by rewrite <- list_fmap_compose.
  - by apply Forall_fmap, Forall_true.
Qed.

Variable JSON_parse : jsstring → option JsValue.

Lemma processEvent_keeps_connected r e s id :
  session_inv2 s → timers (host s) !! id = Some ConnectedCb →
  timers (host (exec (processEvent JSON_parse r e) s)) !! id
  = Some ConnectedCb.
Proof.
  intros Hs Hid.
  destruct (carried JSON_parse e) as [a|] eqn:Ha;
    [|by rewrite processEvent_none].
  destruct (decide (a ∈ addressSetRef s)) as [Hin|Hnew];
    [by rewrite (processEvent_seen _ r e s a)|].
  rewrite (processEvent_new _ r e s a) by done.
  destruct (record_address_frame a s) as (_ & _ & _ & _ & _ & Hhost).
  destruct (_ <=? _)%nat; [|by rewrite Hhost].
  apply stop_keeps_connected; [by apply inv2_record|by rewrite Hhost].
Qed.

Lemma step_keeps_connected a s id :
  session_inv2 s → timers (host s) !! id = Some ConnectedCb →
  (∀ now, a ≠ Fire id now) →
  timers (host (step JSON_parse a s)) !! id = Some ConnectedCb.
Proof.
  intros Hs Hid Hother. destruct a as [p e|id' now|now outcome| |text].
  - rewrite step_deliver.
    destruct (pools (host s) !! p) as [pool|]; [|done].
    destruct (subscribed pool), (onevent pool); try done.
    by apply processEvent_keeps_connected.
  - assert (id' ≠ id) as Hne by (intros ->; by destruct (Hother now)).
    destruct (refs_not_connected s id Hs Hid) as [Ht Hi].
    destruct (disarm_frame id' s) as (_ & _ & _ & _ & Htm).
    rewrite step_fire.
    destruct (timers (host s) !! id') as [[r| |]|] eqn:Hid'; [| | |done].
    + apply stop_keeps_timer.
      * by rewrite Htm, lookup_delete_ne.
      * by destruct s.
      * by destruct s.
    + destruct (interval_frame2 now s)
        as (_ & _ & _ & _ & _ & _ & _ & [(_ & -> & _)|(i & Hi' & _ & -> & _)]);
        [done|].
      rewrite lookup_delete_ne; [done|congruence].
    + destruct (connected_frame (upd_host (disarm id') s))
        as (_ & _ & _ & _ & _ & _ & ->).
      by rewrite Htm, lookup_delete_ne.
  - rewrite step_click_start. destruct (isRunning s) eqn:Hrun; [done|].
    by apply start_keeps_timer.
  - rewrite step_click_stop. destruct (isRunning s); [|done].
    by apply stop_keeps_connected.
  - rewrite step_edit. destruct (isRunning s); [done|]. by destruct s.
Qed.

Lemma fire_connected id now s :
  timers (host s) !! id = Some ConnectedCb →
  let s' := step JSON_parse (Fire id now) s in
  map url (relayStatuses s') = map url (relayStatuses s)
  ∧ Forall (λ rs, status rs = connected) (relayStatuses s')
  ∧ isRunning s' = isRunning s
  ∧ statusMessage s' = statusMessage s
  ∧ foundAddresses s' = foundAddresses s
  ∧ timers (host s') = delete id (timers (host s)).
Proof.
  intros Hid. cbv zeta. rewrite step_fire, Hid.
  destruct (connected_statuses (upd_host (disarm id) s)) as (Hrs & Hurl & Hall).
  destruct (connected_frame (upd_host (disarm id) s))
    as (_ & -> & -> & _ & _ & _ & ->).
  rewrite Hurl. destruct (disarm_frame id s) as (_ & _ & _ & _ & ->).
  assert (statusMessage (exec connectedCallback (upd_host (disarm id) s))
          = statusMessage s) as -> by by destruct s.
  split; [by destruct s|]. split; [done|]. by destruct s.
Qed.

End GraceTimerFacts.

(** X12. Nothing cancels the grace-period timer: once armed by a start,
    it stays armed through every step of the event loop other than its
    own firing, a stop and a later start included. When it fires it
    marks every listed relay [connected], whether or not the session
    still runs, and changes neither the listed urls nor the running
    flag, the status message or the addresses. *)
Theorem X12_grace_timer_never_cancelled (JSON_parse : jsstring → option JsValue) :
  (∀ s id a, reachable JSON_parse s →
     timers (host s) !! id = Some ConnectedCb →
     (∀ now, a ≠ Fire id now) →
     timers (host (step JSON_parse a s)) !! id = Some ConnectedCb)
  ∧ (∀ s id now, timers (host s) !! id = Some ConnectedCb →
       map url (relayStatuses (step JSON_parse (Fire id now) s))
       = map url (relayStatuses s)
       ∧ Forall (λ rs, status rs = connected)
           (relayStatuses (step JSON_parse (Fire id now) s))
       ∧ isRunning (step JSON_parse (Fire id now) s) = isRunning s
       ∧ statusMessage (step JSON_parse (Fire id now) s) = statusMessage s
       ∧ foundAddresses (step JSON_parse (Fire id now) s) = foundAddresses s
       ∧ timers (host (step JSON_parse (Fire id now) s))
         = delete id (timers (host s))).
Proof.
  split.
  - intros s id a Hs. apply step_keeps_connected. by eapply reachable_inv2.
  - intros s id now. apply fire_connected.
Qed.

Lemma X12_witness :
  reachable json_parse started
  ∧ timers (host started) !! 3%positive = Some ConnectedCb
  ∧ timers (host (step json_parse ClickStop started)) !! 3%positive
    = Some ConnectedCb
  ∧ isRunning (step json_parse (Fire 3 3000) (step json_parse ClickStop started))
    = isRunning (step json_parse ClickStop started).
Proof.
  assert (timers (host started) !! 3%positive = Some ConnectedCb) as Hid
    by (vm_compute; reflexivity).
  assert (∀ now, ClickStop ≠ Fire 3 now) as Hother by discriminate.
  pose proof (proj1 (X12_grace_timer_never_cancelled json_parse) started
                3%positive ClickStop started_reachable Hid Hother) as Hkept.
  split; [exact started_reachable|]. split; [exact Hid|]. split; [exact Hkept|].
  destruct (proj2 (X12_grace_timer_never_cancelled json_parse)
              (step json_parse ClickStop started) 3%positive 3000%Z Hkept)
    as (_ & _ & Hrun & _).
  exact Hrun.
Defined.

(** ** What the component shows *)

Section DisplayFacts.

Implicit Types (r : Render) (s : State).

Lemma display_frame s s' :
  display_inv s →
  relayStatuses s' = relayStatuses s → isRunning s' = isRunning s →
  relayInput s' = relayInput s → timeRemaining s' = timeRemaining s →
  display_inv s'.
Proof.
  unfold display_inv. by intros Hs -> -> -> ->.
Qed.

Lemma display_stop r s :
  display_inv s → display_inv (exec (stopHarvesting r) s).
Proof.
  intros (Hok & _). unfold display_inv.
  destruct (stop_frame r s) as (_ & _ & -> & _).
  destruct (stop_cleared r s) as (-> & _ & _ & _ & _ & ->). done.
Qed.

Lemma connecting_statuses (relays : list jsstring) :
  let rs := map (λ u, {| url := u; status := connecting;
                         error_detail := None |}) relays in
  Forall (λ rs, status rs ≠ error ∧ error_detail rs = None) rs
  ∧ map url rs = relays.
Proof.
  cbv zeta. split.
  - by apply Forall_fmap, Forall_true.
  - rewrite <- list_fmap_compose. apply list_fmap_id.
Qed.

Lemma display_start now outcome s :
  display_inv s → isRunning s = false →
  display_inv (exec (startHarvesting (render s) now outcome) s).
Proof.
  intros (Hok & _ & Htr & _) Hstopped. specialize (Htr Hstopped).
  destruct (parseRelays (r_relayInput (render s))) as [|u us] eqn:Hrelays.
  - rewrite start_empty by done. unfold display_inv. simpl.
    by rewrite Htr.
  - destruct (connecting_statuses (parseRelays (relayInput s))) as [Hall Hurl].
    destruct outcome as [|err].
    + rewrite start_subscribed by (by rewrite Hrelays).
      unfold display_inv. cbn -[parseRelays]. by rewrite Htr.
    + rewrite start_threw by (by rewrite Hrelays). apply display_stop.
      unfold display_inv. cbn -[parseRelays]. by rewrite Htr.
Qed.

Lemma interval_display now s :
  let s' := exec (intervalCallback now) s in
  relayStatuses s' = relayStatuses s
  ∧ (timeRemaining s' = timeRemaining s
     ∨ ∃ k, timeRemaining s' = Some k ∧ (0 ≤ k)%Z).
Proof.
  cbv zeta. destruct (startTimeRef s) as [t|] eqn:Ht.
  - destruct (decide (t = 0%Z)) as [->|Hne].
    + assert (exec (intervalCallback now) s = s) as ->; [|by auto].
      unfold intervalCallback.
      destruct s as [? ? ? ? ? ? ? ? ? ? ? ? ?]; simpl in Ht; by subst.
    + split.
      * unfold intervalCallback.
        destruct s as [? ? ? ? ? ? ? ? ? [?|] ? ? [? ? ? ? ?]];
          simpl in Ht; subst; cmd_unfold;
          rewrite (proj2 (Z.eqb_neq t 0) Hne);
          destruct (_ <=? 0)%Z; reflexivity.
      * right. eexists. split; [by apply interval_timeRemaining|].
        apply Z.div_pos; lia.
  - rewrite interval_no_start by done. auto.
Qed.

Lemma display_interval now s :
  display_inv s → isRunning s = true →
  display_inv (exec (intervalCallback now) s).
Proof.
  intros (Hok & Hurl & _ & Hk) Hrun. specialize (Hurl Hrun).
  destruct (interval_frame2 now s) as (Hrun' & Hri & _).
  destruct (interval_display now s) as (Hrs & Htr).
  unfold display_inv. rewrite Hrs, Hrun', Hri, Hrun.
  split; [done|]. split; [done|]. split; [done|].
  destruct Htr as [->|(k & -> & Hpos)]; [done|]. by intros ? [= <-].
Qed.

Lemma display_connected s :
  display_inv s → display_inv (exec connectedCallback s).
Proof.
  intros (Hok & Hurl & Htr & Hk).
  destruct (connected_statuses s) as (Hrs & Hurls & _).
  destruct (connected_frame s) as (Hri & Hrun & _).
  assert (timeRemaining (exec connectedCallback s) = timeRemaining s) as Htr'
    by by destruct s.
  unfold display_inv. rewrite Hurls, Hri, Hrun, Htr'.
  split; [|done]. rewrite Hrs. apply Forall_fmap.
  eapply Forall_impl; [exact Hok|]. by intros rs [_ ?].
Qed.

Variable JSON_parse : jsstring → option JsValue.

Lemma display_processEvent r e s :
  display_inv s → display_inv (exec (processEvent JSON_parse r e) s).
Proof.
  intros Hs.
  destruct (carried JSON_parse e) as [a|] eqn:Ha;
    [|by rewrite processEvent_none].
  destruct (decide (a ∈ addressSetRef s)) as [Hin|Hnew];
    [by rewrite (processEvent_seen _ r e s a)|].
  rewrite (processEvent_new _ r e s a) by done.
  assert (display_inv (record_address a s)) as Hrec
    by (apply (display_frame s); [done|by destruct s..]).
  destruct (_ <=? _)%nat; [by apply display_stop|done].
Qed.

Lemma display_step a s :
  session_inv s → display_inv s → display_inv (step JSON_parse a s).
Proof.
  intros Hinv Hs. destruct a as [p e|id now|now outcome| |text].
  - rewrite step_deliver.
    destruct (pools (host s) !! p) as [pool|]; [|done].
    destruct (subscribed pool), (onevent pool); try done.
    by apply display_processEvent.
  - rewrite step_fire.
    destruct (timers (host s) !! id) as [[r| |]|] eqn:Hid; [| | |done].
    + apply display_stop. apply (display_frame s); [done|by destruct s..].
    + apply display_interval; [done|].
      destruct Hinv as (_ & _ & _ & _ & _ & Hinterval).
      by destruct (Hinterval id Hid).
    + apply display_connected. apply (display_frame s); [done|by destruct s..].
  - rewrite step_click_start. destruct (isRunning s) eqn:Hrun; [done|].
    by apply display_start.
  - rewrite step_click_stop. destruct (isRunning s); [|done].
    by apply display_stop.
  - rewrite step_edit. destruct (isRunning s) eqn:Hrun; [done|].
    destruct Hs as (Hok & _ & Htr & Hk). destruct s. unfold display_inv.
    simpl in *. subst. done.
Qed.

Lemma reachable_display s : reachable JSON_parse s → display_inv s.
Proof.
  induction 1 as [|a s Hreach IH].
  - unfold display_inv. simpl. repeat split; done.
  - apply display_step; [by eapply reachable_inv|done].
Qed.

End DisplayFacts.

(** X13. A mounted component never reports a relay error: every listed
    relay is [connecting] or [connected] and has no error detail. While
    the session runs, the listed urls are exactly the endpoints parsed
    from the relay text, in order, repetitions included. *)
Theorem X13_relay_status_never_error (JSON_parse : jsstring → option JsValue)
    (s : State) :
  reachable JSON_parse s →
  Forall (λ rs, (status rs = connecting ∨ status rs = connected)
                ∧ error_detail rs = None) (relayStatuses s)
  ∧ (isRunning s = true →
       map url (relayStatuses s) = parseRelays (relayInput s)).
Proof.
  intros (Hok & Hurl & _)%reachable_display. split; [|done].
  eapply Forall_impl; [exact Hok|]. intros rs [Hne ?]. split; [|done].
  destruct (status rs); auto. done.
Qed.

Lemma X13_witness :
  reachable json_parse started
  ∧ isRunning started = true
  ∧ map url (relayStatuses started) = parseRelays (relayInput started).
Proof.
  assert (isRunning started = true) as Hrun by (vm_compute; reflexivity).
  split; [exact started_reachable|]. split; [exact Hrun|].
  exact (proj2 (X13_relay_status_never_error json_parse started
                  started_reachable) Hrun).
Defined.

(** X14. A mounted component shows a remaining time only while the
    session runs, and never a negative one: whenever the session is not
    running the remaining time is absent. *)
Theorem X14_time_remaining_only_while_running
    (JSON_parse : jsstring → option JsValue) (s : State) :
  reachable JSON_parse s →
  (isRunning s = false → timeRemaining s = None)
  ∧ (∀ k, timeRemaining s = Some k → isRunning s = true ∧ (0 ≤ k)%Z).
Proof.
  intros (_ & _ & Htr & Hk)%reachable_display. split; [done|].
  intros k Hsome. split; [|by apply Hk].
  destruct (isRunning s); [done|]. rewrite Htr in Hsome; done.
Qed.

Lemma X14_witness :
  reachable json_parse full ∧ isRunning full = false
  ∧ timeRemaining full = None.
Proof.
  assert (isRunning full = false) as Hstopped by (vm_compute; reflexivity).
  split; [exact full_reachable|]. split; [exact Hstopped|].
  exact (proj1 (X14_time_remaining_only_while_running json_parse full
                  full_reachable) Hstopped).
Defined.

(** ** The calls made to the host and to the client *)

Section CallFacts.

Implicit Types (r : Render) (s : State).

Lemma stop_calls_expected r s :
  ∃ extra, calls (host (exec (stopHarvesting r) s)) = calls (host s) ++ extra
           ∧ Forall expected_call extra.
Proof.
  eexists. split; [apply stop_calls|].
  destruct (timeoutIdRef s), (intervalIdRef s), (closing s);
    repeat constructor.
Qed.

Lemma parseRelays_endpoints input : Forall endpoint (parseRelays input).
Proof. apply Forall_forall, parseRelays_endpoint_elem. Qed.

Lemma start_calls_expected r now outcome s :
  ∃ extra,
    calls (host (exec (startHarvesting r now outcome) s))
    = calls (host s) ++ extra
    ∧ Forall expected_call extra.
Proof.
  destruct (decide (parseRelays (r_relayInput r) = [])) as [Hnone|Hsome].
  - exists []. rewrite start_empty by done. by rewrite app_nil_r.
  - assert (expected_call (CallSubscribeMany (nextPool (host s))
                             (parseRelays (r_relayInput r)))) as Hsub.
    { split; [done|apply parseRelays_endpoints]. }
    destruct outcome as [|err].
    + eexists. rewrite start_subscribed by done.
      split; [reflexivity|].
      repeat (apply Forall_cons; split); [done|by left|done|done|by right|constructor].
    + rewrite start_threw by done.
      match goal with |- context [exec (stopHarvesting r) ?m] =>
        destruct (stop_calls_expected r m) as (extra & -> & Hextra) end.
      eexists. cbn -[parseRelays]. rewrite <- app_assoc.
      split; [reflexivity|]. apply Forall_app. split; [|done].
      repeat (apply Forall_cons; split); [done|by left|done|done|constructor].
Qed.

Variable JSON_parse : jsstring → option JsValue.

Lemma step_calls_expected a s :
  ∃ extra, calls (host (step JSON_parse a s)) = calls (host s) ++ extra
           ∧ Forall expected_call extra.
Proof.
  assert (Hsame : ∃ extra, calls (host s) = calls (host s) ++ extra
                           ∧ Forall expected_call extra).
  { exists []. by rewrite app_nil_r. }
  destruct a as [p e|id now|now outcome| |text].
  - rewrite step_deliver.
    destruct (pools (host s) !! p) as [pool|]; [|done].
    destruct (subscribed pool), (onevent pool) as [r|]; try done.
    destruct (carried JSON_parse e) as [a|] eqn:Ha;
      [|by rewrite processEvent_none].
    destruct (decide (a ∈ addressSetRef s)) as [Hin|Hnew];
      [by rewrite (processEvent_seen _ r e s a)|].
    rewrite (processEvent_new _ r e s a) by done.
    destruct (record_address_frame a s) as (_ & _ & _ & _ & _ & Hhost).
    destruct (_ <=? _)%nat; [|by rewrite Hhost].
    rewrite <- Hhost. apply stop_calls_expected.
  - rewrite step_fire.
    destruct (disarm_frame id s) as (_ & _ & Hcalls & _).
    destruct (timers (host s) !! id) as [[r| |]|]; [| | |done].
    + rewrite <- Hcalls. apply stop_calls_expected.
    + destruct (interval_frame2 now s)
        as (_ & _ & _ & _ & _ & _ & _ & [(_ & _ & ->)|(i & _ & _ & _ & ->)]);
        [done|].
      eexists. split; [reflexivity|]. by repeat constructor.
    + destruct (connected_frame (upd_host (disarm id) s))
        as (_ & _ & _ & _ & _ & _ & ->).
      by rewrite Hcalls.
  - rewrite step_click_start. destruct (isRunning s); [done|].
    apply start_calls_expected.
  - rewrite step_click_stop. destruct (isRunning s); [|done].
    apply stop_calls_expected.
  - rewrite step_edit. destruct (isRunning s); [done|]. by destruct s.
Qed.

Lemma reachable_calls_expected s :
  reachable JSON_parse s → Forall expected_call (calls (host s)).
Proof.
  induction 1 as [|a s Hreach IH]; [constructor|].
  destruct (step_calls_expected a s) as (extra & -> & Hextra).
  by apply Forall_app.
Qed.

End CallFacts.

(** X15. A mounted component only ever asks the client to subscribe on a
    list of at least one relay, each starting with [wss://], without
    newline or comma and without white space at either end; and it only
    ever arms a timeout for 45000 ms or 2000 ms and a repeating timer for
    100 ms. *)
Theorem X15_only_expected_calls (JSON_parse : jsstring → option JsValue)
    (s : State) :
  reachable JSON_parse s →
  (∀ p relays, CallSubscribeMany p relays ∈ calls (host s) →
     relays ≠ [] ∧ Forall endpoint relays)
  ∧ (∀ id ms, CallSetTimeout id ms ∈ calls (host s) →
       ms = TIMEOUT_MS ∨ ms = 2000%Z)
  ∧ (∀ id ms, CallSetInterval id ms ∈ calls (host s) → ms = 100%Z).
Proof.
  intros Hs%reachable_calls_expected. rewrite Forall_forall in Hs.
  split; [|split]; intros ? ? Hc; apply (Hs _ Hc).
Qed.

Lemma X15_witness :
  reachable json_parse started
  ∧ CallSubscribeMany 1 (parseRelays DEFAULT_RELAYS) ∈ calls (host started)
  ∧ parseRelays DEFAULT_RELAYS ≠ [].
Proof.
  assert (calls (host started)
          = [CallNewPool 1; CallSetTimeout 1 45000; CallSetInterval 2 100;
             CallSubscribeMany 1 (parseRelays DEFAULT_RELAYS);
             CallSetTimeout 3 2000]) as Hcalls
    by (vm_compute; reflexivity).
  assert (CallSubscribeMany 1 (parseRelays DEFAULT_RELAYS)
            ∈ calls (host started)) as Hsub.
  { rewrite Hcalls. rewrite !elem_of_cons. tauto. }
  split; [exact started_reachable|]. split; [exact Hsub|].
  exact (proj1 (proj1 (X15_only_expected_calls json_parse started
                         started_reachable) 1%positive _ Hsub)).
Defined.

(** ** Blank relay text *)

Section BlankFacts.

Implicit Types (s t : jsstring).

Lemma trimStart_spaces s : Forall (λ c, is_space c = true) s → trimStart s = [].
Proof. induction 1 as [|c s Hc _ IH]; simpl; [done|]. by rewrite Hc. Qed.

Lemma trim_spaces s : Forall (λ c, is_space c = true) s → trim s = [].
Proof. intros H. unfold trim, trimEnd. by rewrite (trimStart_spaces s H). Qed.

Lemma split_blank s token :
  Forall (λ c, blank c = true) s → token ∈ split relay_separator s →
  Forall (λ c, is_space c = true) token.
Proof.
  intros Hblank Htoken.
  pose proof (split_no_separator relay_separator s token Htoken) as Hnosep.
  assert (Forall (λ c, blank c = true) token) as Htok.
  { clear Hnosep. revert token Htoken.
    induction Hblank as [|d s Hd Hs IH]; simpl; intros token.
    - intros ->%list_elem_of_singleton. constructor.
    - destruct (relay_separator d).
      + intros [->|Hin]%elem_of_cons; [constructor|by apply IH].
      + pose proof (split_nonempty relay_separator s) as Hne.
        destruct (split relay_separator s) as [|tok toks]; [done|].
        intros [->|Hin]%elem_of_cons.
        * constructor; [done|]. apply IH. by left.
        * apply IH. by right. }
  rewrite Forall_forall in *. intros c Hc.
  specialize (Htok c Hc). specialize (Hnosep c Hc). unfold blank in Htok.
  rewrite Hnosep, orb_false_r in Htok. done.
Qed.

Lemma parseRelays_blank s :
  Forall (λ c, blank c = true) s → parseRelays s = [].
Proof.
  intros Hblank.
  destruct (parseRelays s) as [|u us] eqn:E; [done|].
  assert (u ∈ parseRelays s) as Hu by (rewrite E; left).
  apply parseRelays_elem in Hu as (token & Htoken & -> & Hprefix).
  rewrite (trim_spaces token) in Hprefix
    by by eapply split_blank.
  by apply prefix_nil_inv in Hprefix.
Qed.

End BlankFacts.

(** X16. A relay text made only of white space, newlines and commas (the
    empty text included) parses to no endpoint, and a click on start
    with such a text fails: the session is not running, the status is
    the configuration error and no call is made to the host or the
    client. *)
Theorem X16_blank_relay_text (JSON_parse : jsstring → option JsValue)
    (s : State) (now : Z) (outcome : SubscribeOutcome) :
  Forall (λ c, blank c = true) (relayInput s) → isRunning s = false →
  parseRelays (relayInput s) = []
  ∧ isRunning (step JSON_parse (ClickStart now outcome) s) = false
  ∧ statusMessage (step JSON_parse (ClickStart now outcome) s)
    = js "Error: No valid relay URLs provided"
  ∧ host (step JSON_parse (ClickStart now outcome) s) = host s.
Proof.
  intros Hblank%parseRelays_blank Hstopped. split; [done|].
  rewrite step_click_start, Hstopped. by rewrite start_empty.
Qed.

Lemma X16_witness :
  Forall (λ c, blank c = true) (js " , " ++ [LF; 9%N])
  ∧ parseRelays (js " , " ++ [LF; 9%N]) = [].
Proof.
  assert (Forall (λ c, blank c = true) (js " , " ++ [LF; 9%N])) as Hblank
    by (repeat constructor).
  split; [exact Hblank|].
  exact (proj1 (X16_blank_relay_text json_parse
                  (upd_relayInput (λ _, js " , " ++ [LF; 9%N]) initialState)
                  1000 Subscribed Hblank eq_refl)).
Defined.
